(** * InOutDeshadowing: removal of non-escaping inout shadows

    A shallow embedding of [lib/SILPasses/InOutDeshadowing.cpp] and the
    properties of the pass.  The pass itself ([promoteShadow],
    [isCopyToOrFromStack], [processInOutValue], [performInOutDeshadowing],
    [runOnFunction]) is translated from the source; the part of the SIL
    library it calls (values, operands, use lists, instruction erasure) is
    not among the sources and is modelled here. *)

From stdpp Require Import list.
From Equations Require Import Equations.

(** ** The SIL data model *)

(** Modelled from the spec: [SILInstruction*] and [SILArgument*] pointers
    (swift/SIL is not among the sources); an object is known by its
    identity. *)
Definition InstId := nat.
Definition ArgId := nat.

(** Modelled from the spec: [ValueBase], the definition a value comes from,
    either a block argument or an instruction. *)
Inductive ValueBase :=
| ArgumentDef (A : ArgId)
| InstructionDef (I : InstId).

(** Modelled from the spec: [SILValue], a definition together with the
    number of the result that is meant.  An argument has the single result
    0; an [alloc_stack] has result 0 (the lifecycle handle) and result 1
    (the address). *)
Record SILValue := mkValue {
  getDef : ValueBase;
  getResultNumber : nat
}.

(** The conversion of a [SILArgument*] to a [SILValue] that the source
    applies when it compares an operand with [InOutArg] or stores
    [InOutArg] in one. *)
Definition argValue (A : ArgId) : SILValue := mkValue (ArgumentDef A) 0.

(** Modelled from the spec: an [Operand*], the operand slot
    [getOperandNumber] of the instruction [getUser]. *)
Record Operand := mkOperand {
  getUser : InstId;
  getOperandNumber : nat
}.

(** Modelled from the spec: the two facts the pass asks of a [SILLocation]:
    whether it is flagged autogenerated, and whether it is a
    [SILFileLocation]. *)
Record SILLocation := mkLoc {
  isAutoGenerated : bool;
  isSILFileLocation : bool
}.

(** Modelled from the spec: the instruction kinds as a tagged variant with
    the operands each kind carries.  [CopyAddrInst] has its source as
    operand 0 and its destination as operand 1, and the two flags
    [take] and [initialization]. *)
Inductive InstKind :=
| AllocStackInst
| DeallocStackInst (Op : SILValue)
| CopyAddrInst (Src Dest : SILValue) (IsTake IsInit : bool)
| MarkUninitializedInst (Op : SILValue)
| OtherInst (Opcode : nat) (Ops : list SILValue).

Record SILInstruction := mkInst {
  getId : InstId;
  getLoc : SILLocation;
  getKind : InstKind
}.

(** Modelled from the spec: the passing convention of a parameter, of which
    the pass asks [isIndirectInOut()]. *)
Inductive ParameterConvention :=
| Indirect_In | Indirect_Out | Indirect_Inout
| Direct_Owned | Direct_Unowned | Direct_Guaranteed.

Record SILParameterInfo := mkParam {
  getConvention : ParameterConvention
}.

Definition isIndirectInOut (P : SILParameterInfo) : bool :=
  match getConvention P with Indirect_Inout => true | _ => false end.

(** Modelled from the spec: a basic block, with the arguments it binds and
    its instructions in order. *)
Record SILBasicBlock := mkBlock {
  getBBArgs : list ArgId;
  getInstList : list SILInstruction
}.

(** Modelled from the spec: a function.  [getBlocks] is empty for a
    declaration.  Every operand is linked into the use list of the value it
    refers to; [useOrder] holds the operand handles of the function, most
    recently linked first, and the use list of a value is read off it by
    [getUses] below. *)
Record SILFunction := mkFunction {
  getInterfaceParameters : list SILParameterInfo;
  getBlocks : list SILBasicBlock;
  useOrder : list Operand
}.

#[global] Instance ValueBase_eq_dec : EqDecision ValueBase.
Proof. solve_decision. Defined.
#[global] Instance SILValue_eq_dec : EqDecision SILValue.
Proof. solve_decision. Defined.
#[global] Instance Operand_eq_dec : EqDecision Operand.
Proof. solve_decision. Defined.
#[global] Instance SILLocation_eq_dec : EqDecision SILLocation.
Proof. solve_decision. Defined.
#[global] Instance InstKind_eq_dec : EqDecision InstKind.
Proof. solve_decision. Defined.
#[global] Instance SILInstruction_eq_dec : EqDecision SILInstruction.
Proof. solve_decision. Defined.

(** ** Instruction and operand access *)

(** Modelled from the spec: [SILInstruction::getAllOperands()], the values
    of the operands in the order of their operand numbers. *)
Definition getAllOperands (I : SILInstruction) : list SILValue :=
  match getKind I with
  | AllocStackInst => []
  | DeallocStackInst Op => [Op]
  | CopyAddrInst Src Dest _ _ => [Src; Dest]
  | MarkUninitializedInst Op => [Op]
  | OtherInst _ Ops => Ops
  end.

(** The instruction with operand [n] replaced; nothing else changes. *)
Definition setOperandValue (n : nat) (V : SILValue) (I : SILInstruction)
  : SILInstruction :=
  mkInst (getId I) (getLoc I)
    match getKind I with
    | AllocStackInst => AllocStackInst
    | DeallocStackInst Op =>
        match n with 0 => DeallocStackInst V | _ => DeallocStackInst Op end
    | CopyAddrInst Src Dest t i =>
        match n with
        | 0 => CopyAddrInst V Dest t i
        | 1 => CopyAddrInst Src V t i
        | _ => CopyAddrInst Src Dest t i
        end
    | MarkUninitializedInst Op =>
        match n with
        | 0 => MarkUninitializedInst V
        | _ => MarkUninitializedInst Op
        end
    | OtherInst oc Ops => OtherInst oc (<[n:=V]> Ops)
    end.

(** All instructions of the function, block after block. *)
Definition instructions (F : SILFunction) : list SILInstruction :=
  concat (getInstList <$> getBlocks F).

(** The first instruction of the list with the identity [Id]. *)
Fixpoint lookupInst (Id : InstId) (l : list SILInstruction)
  : option SILInstruction :=
  match l with
  | [] => None
  | X :: l' => if decide (getId X = Id) then Some X else lookupInst Id l'
  end.

(** Modelled from the spec: dereferencing a [SILInstruction*]; [None] for an
    identity that no instruction of the function has. *)
Definition getInst (F : SILFunction) (Id : InstId) : option SILInstruction :=
  lookupInst Id (instructions F).

(** Modelled from the spec: [Operand::get()], the value an operand
    currently refers to. *)
Definition get (F : SILFunction) (U : Operand) : option SILValue :=
  I ← getInst F (getUser U); getAllOperands I !! getOperandNumber U.

(** The operand [U] is an operand of the function and refers to a result
    of [D]. *)
Definition refersTo (F : SILFunction) (D : ValueBase) (U : Operand) : Prop :=
  ∃ V, get F U = Some V ∧ getDef V = D.

#[global] Instance refersTo_dec F D U : Decision (refersTo F D U).
Proof.
  unfold refersTo. destruct (get F U) as [V|].
  - destruct (decide (getDef V = D)) as [e|n].
    + left. exists V. auto.
    + right. intros [V' [H1 H2]]. congruence.
  - right. intros [V' [H1 H2]]. discriminate.
Defined.

(** Modelled from the spec: [ValueBase::getUses()], the use list of a
    definition in use-list order; [use_begin()] is its head and
    [use_empty()] says that it is empty.  All results of an instruction
    share one use list.  Only operands of instructions that are in the
    function are in a use list. *)
Definition getUses (D : ValueBase) (F : SILFunction) : list Operand :=
  filter (refersTo F D) (useOrder F).

(** ** Mutation of the graph *)

(** The function with [f] applied to the instruction list of each block and
    [order] as the order of its operand handles. *)
Definition mapInstLists (f : list SILInstruction → list SILInstruction)
    (F : SILFunction) (order : list Operand) : SILFunction :=
  mkFunction (getInterfaceParameters F)
    ((λ B, mkBlock (getBBArgs B) (f (getInstList B))) <$> getBlocks F)
    order.

(** Modelled from the spec: [SILInstruction::eraseFromParent()].  The
    instruction leaves its block and its operands, destroyed with it, leave
    the use lists they were linked into. *)
Definition eraseFromParent (Id : InstId) (F : SILFunction) : SILFunction :=
  mapInstLists (filter (λ I, getId I ≠ Id)) F
    (filter (λ U, getUser U ≠ Id) (useOrder F)).

(** Modelled from the spec: [Operand::set(V)].  The operand is unlinked from
    the use list it is in, made to refer to [V], and linked at the head of
    the use list of [V]. *)
Definition set (U : Operand) (V : SILValue) (F : SILFunction) : SILFunction :=
  mapInstLists
    (fmap (λ I, if decide (getId I = getUser U)
                then setOperandValue (getOperandNumber U) V I else I))
    F
    (U :: filter (λ U', U' ≠ U) (useOrder F)).

(** ** Basic facts about the graph operations *)

Lemma getAllOperands_setOperandValue n V I :
  getAllOperands (setOperandValue n V I) = <[n:=V]> (getAllOperands I).
Proof.
  destruct I as [id loc k]. unfold getAllOperands, setOperandValue. simpl.
  destruct k as [|Op|Src Dest t i|Op|oc Ops]; simpl; try done;
    destruct n as [|[|n]]; done.
Qed.

Lemma instructions_mapInstLists f F order :
  f [] = [] → (∀ l1 l2, f (l1 ++ l2) = f l1 ++ f l2) →
  instructions (mapInstLists f F order) = f (instructions F).
Proof.
  intros Hnil Hf. unfold instructions, mapInstLists. simpl.
  induction (getBlocks F) as [|B Bs IH]; csimpl; [done|].
  by rewrite Hf, IH.
Qed.

Lemma instructions_eraseFromParent Id F :
  instructions (eraseFromParent Id F)
  = filter (λ X, getId X ≠ Id) (instructions F).
Proof.
  unfold eraseFromParent. rewrite instructions_mapInstLists; [done..|].
  intros. apply filter_app.
Qed.

Lemma instructions_set U V F :
  instructions (set U V F)
  = (λ X, if decide (getId X = getUser U)
          then setOperandValue (getOperandNumber U) V X else X)
    <$> instructions F.
Proof.
  unfold set. rewrite instructions_mapInstLists; [done..|].
  intros. apply fmap_app.
Qed.

Lemma lookupInst_Some Id l X :
  lookupInst Id l = Some X → X ∈ l ∧ getId X = Id.
Proof.
  induction l as [|Y l IH]; simpl; [done|].
  case_decide; intros Heq.
  - inversion Heq; subst. split; [left|done].
  - destruct (IH Heq). split; [by right|done].
Qed.

Lemma lookupInst_filter_ne Id Id' l :
  Id' ≠ Id →
  lookupInst Id' (filter (λ X, getId X ≠ Id) l) = lookupInst Id' l.
Proof.
  intros Hne. induction l as [|X l IH]; [done|].
  rewrite filter_cons. simpl. case_decide; simpl.
  - case_decide; [done|apply IH].
  - rewrite IH. case_decide; [congruence|done].
Qed.

Lemma lookupInst_filter_eq Id l :
  lookupInst Id (filter (λ X, getId X ≠ Id) l) = None.
Proof.
  induction l as [|X l IH]; [done|].
  rewrite filter_cons. case_decide; simpl; [|done].
  case_decide; [congruence|done].
Qed.

Lemma lookupInst_fmap Id (g : SILInstruction → SILInstruction) l :
  (∀ X, getId (g X) = getId X) →
  lookupInst Id (g <$> l) = g <$> lookupInst Id l.
Proof.
  intros Hg. induction l as [|X l IH]; [done|].
  simpl. rewrite Hg. case_decide; [done|apply IH].
Qed.

Lemma getInst_erase_ne Id Id' F :
  Id' ≠ Id → getInst (eraseFromParent Id F) Id' = getInst F Id'.
Proof.
  intros. unfold getInst. rewrite instructions_eraseFromParent.
  by apply lookupInst_filter_ne.
Qed.

Lemma getInst_erase_eq Id F : getInst (eraseFromParent Id F) Id = None.
Proof.
  unfold getInst. rewrite instructions_eraseFromParent.
  apply lookupInst_filter_eq.
Qed.

Lemma getInst_set U V F Id :
  getInst (set U V F) Id
  = (λ X, if decide (getId X = getUser U)
          then setOperandValue (getOperandNumber U) V X else X)
    <$> getInst F Id.
Proof.
  unfold getInst. rewrite instructions_set. apply lookupInst_fmap.
  intros X. by case_decide.
Qed.

Lemma get_erase_ne Id F U :
  getUser U ≠ Id → get (eraseFromParent Id F) U = get F U.
Proof. intros. unfold get. by rewrite getInst_erase_ne. Qed.

Lemma get_set_eq U V F :
  is_Some (get F U) → get (set U V F) U = Some V.
Proof.
  unfold get. rewrite getInst_set. intros [W HW].
  destruct (getInst F (getUser U)) as [X|] eqn:HX; simpl in *; [|done].
  apply lookupInst_Some in HX as [_ HX].
  rewrite decide_True by done.
  rewrite getAllOperands_setOperandValue.
  apply list_lookup_insert_eq. by eapply lookup_lt_Some.
Qed.

Lemma get_set_ne U U' V F :
  U' ≠ U → get (set U V F) U' = get F U'.
Proof.
  intros Hne. unfold get. rewrite getInst_set.
  destruct (getInst F (getUser U')) as [X|] eqn:HX; simpl; [|done].
  apply lookupInst_Some in HX as [_ HX].
  case_decide as Hid; [|done].
  rewrite getAllOperands_setOperandValue.
  apply list_lookup_insert_ne. intros Heq. apply Hne.
  destruct U, U'; simpl in *; congruence.
Qed.

Lemma getUses_eraseFromParent D Id F :
  getUses D (eraseFromParent Id F)
  = filter (λ U, getUser U ≠ Id) (getUses D F).
Proof.
  unfold getUses. simpl. rewrite !list_filter_filter.
  apply list_filter_iff. intros U. unfold refersTo. split.
  - intros [[V [HV HD]] Hne]. split; [done|].
    exists V. by rewrite get_erase_ne in HV.
  - intros [Hne [V [HV HD]]]. split; [|done].
    exists V. by rewrite get_erase_ne.
Qed.

Lemma getUses_set D U V F :
  U ∈ getUses D F → getDef V ≠ D →
  getUses D (set U V F) = filter (λ U', U' ≠ U) (getUses D F).
Proof.
  intros HU HV. unfold getUses in *. simpl.
  apply list_elem_of_filter in HU as [[W [HW HD]] HU].
  rewrite filter_cons_False.
  2:{ intros [V' [H1 H2]]. rewrite get_set_eq in H1 by eauto. congruence. }
  rewrite !list_filter_filter. apply list_filter_iff. intros U'.
  unfold refersTo. split.
  - intros [[V' [H1 H2]] Hne]. rewrite get_set_ne in H1 by done. eauto.
  - intros [Hne [V' [H1 H2]]]. split; [|done].
    exists V'. by rewrite get_set_ne.
Qed.

(** [set] links the operand at the head of the use list of its new value;
    with [getUses_set] and [getUses_eraseFromParent] this is how the use
    lists of the SIL library behave: an operand leaves the list it was in,
    and the other entries of a list keep their order. *)
Lemma getUses_set_new U V F :
  is_Some (get F U) →
  getUses (getDef V) (set U V F)
  = U :: filter (λ U', U' ≠ U) (getUses (getDef V) F).
Proof.
  intros HU. unfold getUses. simpl.
  rewrite filter_cons_True.
  2:{ exists V. by rewrite get_set_eq. }
  f_equal. rewrite !list_filter_filter. apply list_filter_iff. intros U'.
  unfold refersTo. split.
  - intros [[V' [H1 H2]] Hne]. rewrite get_set_ne in H1 by done. eauto.
  - intros [Hne [V' [H1 H2]]]. split; [|done].
    exists V'. by rewrite get_set_ne.
Qed.

(** ** The pass *)

(** [dyn_cast<CopyAddrInst>(User)]: the source and destination when the
    instruction is a [copy_addr]. *)
Definition dyn_cast_CopyAddrInst (F : SILFunction) (User : InstId)
  : option (SILLocation * SILValue * SILValue) :=
  match getInst F User with
  | Some X =>
      match getKind X with
      | CopyAddrInst Src Dest _ _ => Some (getLoc X, Src, Dest)
      | _ => None
      end
  | None => None
  end.

(** [dyn_cast<MarkUninitializedInst>(V)]: the operand of the
    [mark_uninitialized] that defines [V], when one does. *)
Definition dyn_cast_MarkUninitializedInst (F : SILFunction) (V : SILValue)
  : option SILValue :=
  match getDef V with
  | InstructionDef Id =>
      match getInst F Id with
      | Some X =>
          match getKind X with
          | MarkUninitializedInst Op => Some Op
          | _ => None
          end
      | None => None
      end
  | ArgumentDef _ => None
  end.

(** [dyn_cast<AllocStackInst>(V)]: the [alloc_stack] that defines [V], when
    one does.  The cast looks at the defining instruction only, not at the
    result number. *)
Definition dyn_cast_AllocStackInst (F : SILFunction) (V : SILValue)
  : option InstId :=
  match getDef V with
  | InstructionDef Id =>
      match getInst F Id with
      | Some X =>
          match getKind X with
          | AllocStackInst => Some Id
          | _ => None
          end
      | None => None
      end
  | ArgumentDef _ => None
  end.

(** One iteration of the loop of [promoteShadow], for the use [Use] that
    [*Alloc->use_begin()] returned.  The source compares the [SILValue]s
    [CAI->getSrc()] and [CAI->getDest()] with [InOutArg], that is with
    result 0 of the argument, the only result an argument has.  An entry of
    a use list always has a value, so that the first branch is never
    taken. *)
Definition promoteShadow_iter (InOutArg : ArgId) (Use : Operand)
    (F : SILFunction) : SILFunction :=
  let User := getUser Use in
  match get F Use with
  | None => F
  | Some V =>
      if decide (getResultNumber V = 0) then
        (* a use of the 0th result: zap the instruction *)
        eraseFromParent User F
      else
        match dyn_cast_CopyAddrInst F User with
        | Some (_, Src, Dest) =>
            if decide (Src = argValue InOutArg ∨ Dest = argValue InOutArg)
            then eraseFromParent User F
            else set Use (argValue InOutArg) F
        | None =>
            (* something else that is using the memory *)
            set Use (argValue InOutArg) F
        end
  end.

Lemma promoteShadow_iter_shrinks Alloc InOutArg Use rest F :
  getUses (InstructionDef Alloc) F = Use :: rest →
  length (getUses (InstructionDef Alloc) (promoteShadow_iter InOutArg Use F))
  < length (getUses (InstructionDef Alloc) F).
Proof.
  intros Huses.
  assert (HUse : Use ∈ getUses (InstructionDef Alloc) F)
    by (rewrite Huses; left).
  assert (Herase :
    length (getUses (InstructionDef Alloc) (eraseFromParent (getUser Use) F))
    < length (getUses (InstructionDef Alloc) F)).
  { rewrite getUses_eraseFromParent.
    apply (length_filter_lt _ _ Use); [done|]. intros Hne. by apply Hne. }
  assert (Hset :
    length (getUses (InstructionDef Alloc) (set Use (argValue InOutArg) F))
    < length (getUses (InstructionDef Alloc) F)).
  { rewrite getUses_set by done.
    apply (length_filter_lt _ _ Use); [done|]. intros Hne. by apply Hne. }
  unfold promoteShadow_iter.
  pose proof HUse as HUse'. unfold getUses in HUse'.
  apply list_elem_of_filter in HUse' as [[V [HV _]] _]. rewrite HV.
  case_decide; [done|].
  destruct (dyn_cast_CopyAddrInst F (getUser Use)) as [[[? ?] ?]|]; [|done].
  by case_decide.
Qed.

(** A value together with the proof that it is what it is, to match on
    it and keep the equation. *)
Definition inspect {A} (a : A) : {b | a = b} := exist _ a eq_refl.

(** The loop [while (!Alloc->use_empty())] of [promoteShadow].  It returns
    the function it leaves and the number of iterations it made. *)
Equations? promoteShadow_loop (Alloc : InstId) (InOutArg : ArgId)
    (F : SILFunction) : SILFunction * nat
    by wf (length (getUses (InstructionDef Alloc) F)) lt :=
  promoteShadow_loop Alloc InOutArg F
    with inspect (getUses (InstructionDef Alloc) F) := {
    | exist _ [] _ => (F, 0)
    | exist _ (Use :: _) Heq =>
        let r := promoteShadow_loop Alloc InOutArg
                   (promoteShadow_iter InOutArg Use F) in
        (r.1, S r.2)
    }.
Proof. by eapply promoteShadow_iter_shrinks. Qed.

(** [promoteShadow]: given an [alloc_stack] that is copied to or from an
    inout argument, replace the [alloc_stack] with that argument. *)
Definition promoteShadow (Alloc : InstId) (InOutArg : ArgId)
    (F : SILFunction) : SILFunction :=
  eraseFromParent Alloc (promoteShadow_loop Alloc InOutArg F).1.

(** [isCopyToOrFromStack]: whether the use [UI] of an inout argument is a
    [copy_addr] to or from an [alloc_stack]; the [alloc_stack] if so. *)
Definition isCopyToOrFromStack (F : SILFunction) (UI : Operand)
  : option InstId :=
  match dyn_cast_CopyAddrInst F (getUser UI) with
  | None => None
  | Some (Loc, Src, Dest) =>
      (* only autogenerated copy_addr's *)
      if negb (isAutoGenerated Loc) && negb (isSILFileLocation Loc)
      then None
      else
        let OtherOp :=
          if decide (getOperandNumber UI = 0) then Dest else Src in
        (* look through mark_uninitialized *)
        let OtherOp :=
          match dyn_cast_MarkUninitializedInst F OtherOp with
          | Some Op => Op
          | None => OtherOp
          end in
        dyn_cast_AllocStackInst F OtherOp
  end.

(** The loop [for (auto UI : InOutArg->getUses())] of [processInOutValue]
    over the uses still to visit. *)
Fixpoint processInOutValue_scan (Uses : list Operand) (InOutArg : ArgId)
    (F : SILFunction) : SILFunction * bool :=
  match Uses with
  | [] => (F, false)
  | UI :: Uses' =>
      match isCopyToOrFromStack F UI with
      | Some ASI => (promoteShadow ASI InOutArg F, true)
      | None => processInOutValue_scan Uses' InOutArg F
      end
  end.

(** [processInOutValue]: true when it promotes away the shadow variable.
    The source asserts that the argument has an address type; types are
    not part of this model. *)
Definition processInOutValue (InOutArg : ArgId) (F : SILFunction)
  : SILFunction * bool :=
  processInOutValue_scan (getUses (ArgumentDef InOutArg) F) InOutArg F.

(** Modelled from the spec: the two [STATISTIC] counters
    (llvm/ADT/Statistic.h is not among the sources) as the monotonically
    increasing counters the spec describes, threaded through the
    drivers. *)
Record Statistics := mkStats {
  NumShadowsRemoved : nat;
  NumShadowsKept : nat
}.

Definition incNumShadowsRemoved (S : Statistics) : Statistics :=
  mkStats (NumShadowsRemoved S + 1) (NumShadowsKept S).

Definition incNumShadowsKept (S : Statistics) : Statistics :=
  mkStats (NumShadowsRemoved S) (NumShadowsKept S + 1).

Definition SILModule := list SILFunction.

(** The loop over the parameters in [performInOutDeshadowing], from index
    [arg] on; [Params] are the parameters from [arg] to the end and
    [BBArgs] the arguments of the entry block, which the pass never
    changes.  The result is [None] when [EntryBlock.getBBArgs()[arg]] is
    read out of range, where the source has no defined behaviour.  The
    index, an [unsigned] in the source, is a [nat]: a parameter list is
    far shorter than the range of an [unsigned]. *)
Fixpoint performInOutDeshadowing_args (Params : list SILParameterInfo)
    (arg : nat) (BBArgs : list ArgId) (Fn : SILFunction) (S : Statistics)
  : option (SILFunction * Statistics) :=
  match Params with
  | [] => Some (Fn, S)
  | P :: Params' =>
      if negb (isIndirectInOut P)
      then performInOutDeshadowing_args Params' (arg + 1) BBArgs Fn S
      else
        match BBArgs !! arg with
        | None => None
        | Some InOutArg =>
            let (Fn', promoted) := processInOutValue InOutArg Fn in
            performInOutDeshadowing_args Params' (arg + 1) BBArgs Fn'
              (if promoted then incNumShadowsRemoved S
               else incNumShadowsKept S)
        end
  end.

(** [swift::performInOutDeshadowing]: the module-wide driver. *)
Fixpoint performInOutDeshadowing (M : SILModule) (S : Statistics)
  : option (SILModule * Statistics) :=
  match M with
  | [] => Some ([], S)
  | Fn :: M' =>
      match getBlocks Fn with
      | [] =>
          (* if (Fn.empty()) continue; *)
          '(M'', S') ← performInOutDeshadowing M' S;
          Some (Fn :: M'', S')
      | EntryBlock :: _ =>
          '(Fn', S1) ← performInOutDeshadowing_args
                         (getInterfaceParameters Fn) 0
                         (getBBArgs EntryBlock) Fn S;
          '(M'', S2) ← performInOutDeshadowing M' S1;
          Some (Fn' :: M'', S2)
      end
  end.

(** The loop over the parameters in [InOutDeshadowing::runOnFunction]. *)
Fixpoint runOnFunction_args (Params : list SILParameterInfo)
    (arg : nat) (BBArgs : list ArgId) (F : SILFunction) (S : Statistics)
  : option (SILFunction * Statistics) :=
  match Params with
  | [] => Some (F, S)
  | P :: Params' =>
      if negb (isIndirectInOut P)
      then runOnFunction_args Params' (arg + 1) BBArgs F S
      else
        match BBArgs !! arg with
        | None => None
        | Some InOutArg =>
            let (F', promoted) := processInOutValue InOutArg F in
            runOnFunction_args Params' (arg + 1) BBArgs F'
              (if promoted then incNumShadowsRemoved S
               else incNumShadowsKept S)
        end
  end.

(** [InOutDeshadowing::runOnFunction]: the function transform.  It takes
    [F.front()] without asking whether [F] has a block; on a function with
    no block that has no defined behaviour, which is [None] here. *)
Definition runOnFunction (F : SILFunction) (S : Statistics)
  : option (SILFunction * Statistics) :=
  match getBlocks F with
  | [] => None
  | EntryBlock :: _ =>
      runOnFunction_args (getInterfaceParameters F) 0
        (getBBArgs EntryBlock) F S
  end.

(** ** Well-formed functions *)

(** An instruction is one object: no two instructions of a function share an
    identity. *)
Definition UniqueIds (F : SILFunction) : Prop :=
  NoDup (getId <$> instructions F).

(** Every operand of every instruction is linked into a use list. *)
Definition OperandsLinked (F : SILFunction) : Prop :=
  ∀ X n, X ∈ instructions F → n < length (getAllOperands X) →
         mkOperand (getId X) n ∈ useOrder F.

(** The two facts about the graph that the SIL library keeps by
    construction and the properties of the pass rest on. *)
Definition WellFormed (F : SILFunction) : Prop :=
  UniqueIds F ∧ OperandsLinked F.

(** ** What promotion does, stated on the instructions *)

(** The instruction with [g] applied to each operand; nothing else
    changes. *)
Definition mapOperands (g : SILValue → SILValue) (X : SILInstruction)
  : SILInstruction :=
  mkInst (getId X) (getLoc X)
    match getKind X with
    | AllocStackInst => AllocStackInst
    | DeallocStackInst Op => DeallocStackInst (g Op)
    | CopyAddrInst Src Dest t i => CopyAddrInst (g Src) (g Dest) t i
    | MarkUninitializedInst Op => MarkUninitializedInst (g Op)
    | OtherInst oc Ops => OtherInst oc (g <$> Ops)
    end.

Section Promotion.
Variable Alloc : InstId.
Variable InOutArg : ArgId.

(** A value of the allocation is replaced by the argument. *)
Definition redirect (V : SILValue) : SILValue :=
  if decide (getDef V = InstructionDef Alloc) then argValue InOutArg else V.

(** The instruction uses result 0 of the allocation. *)
Definition isLifecycleUser (X : SILInstruction) : Prop :=
  mkValue (InstructionDef Alloc) 0 ∈ getAllOperands X.

(** A [copy_addr] between the allocation and the argument. *)
Definition isShadowCopy (X : SILInstruction) : Prop :=
  match getKind X with
  | CopyAddrInst Src Dest _ _ =>
      (getDef Src = InstructionDef Alloc ∧ Dest = argValue InOutArg)
      ∨ (Src = argValue InOutArg ∧ getDef Dest = InstructionDef Alloc)
  | _ => False
  end.

(** A [copy_addr] from the allocation to the allocation. *)
Definition isSelfCopy (X : SILInstruction) : Prop :=
  match getKind X with
  | CopyAddrInst Src Dest _ _ =>
      getDef Src = InstructionDef Alloc ∧ getDef Dest = InstructionDef Alloc
  | _ => False
  end.

(** The instructions that promotion erases. *)
Definition erasedByPromotion (X : SILInstruction) : Prop :=
  getId X = Alloc ∨ isLifecycleUser X ∨ isShadowCopy X ∨ isSelfCopy X.

#[global] Instance isLifecycleUser_dec X : Decision (isLifecycleUser X).
Proof. unfold isLifecycleUser. apply _. Defined.

#[global] Instance isShadowCopy_dec X : Decision (isShadowCopy X).
Proof. unfold isShadowCopy. destruct (getKind X); apply _. Defined.

#[global] Instance isSelfCopy_dec X : Decision (isSelfCopy X).
Proof. unfold isSelfCopy. destruct (getKind X); apply _. Defined.

#[global] Instance erasedByPromotion_dec X : Decision (erasedByPromotion X).
Proof. unfold erasedByPromotion. apply _. Defined.

(** Promotion as one pass over an instruction list: the erased
    instructions are dropped and the operands of the others redirected. *)
Definition deshadowInstList (l : list SILInstruction)
  : list SILInstruction :=
  mapOperands redirect <$> filter (λ X, ¬ erasedByPromotion X) l.

(** The same over the blocks of a function. *)
Definition deshadowBlocks (Bs : list SILBasicBlock) : list SILBasicBlock :=
  (λ B, mkBlock (getBBArgs B) (deshadowInstList (getInstList B))) <$> Bs.
End Promotion.

(** ** Deciding well-formedness *)

#[global] Instance UniqueIds_dec F : Decision (UniqueIds F).
Proof. unfold UniqueIds. apply _. Defined.

#[global] Instance OperandsLinked_dec F : Decision (OperandsLinked F).
Proof.
  refine (cast_if (decide (Forall (λ X,
            Forall (λ n, mkOperand (getId X) n ∈ useOrder F)
                   (seq 0 (length (getAllOperands X))))
            (instructions F)))).
  - intros X n HX Hn. rewrite Forall_forall in f.
    specialize (f X HX). rewrite Forall_forall in f. apply f.
    apply elem_of_seq. lia.
  - intros H. apply n. apply Forall_forall. intros X HX.
    apply Forall_forall. intros m Hm. apply elem_of_seq in Hm.
    apply H; [done|lia].
Defined.

#[global] Instance WellFormed_dec F : Decision (WellFormed F).
Proof. unfold WellFormed. apply _. Defined.

(** ** The recognizer, in the words of the spec *)

(** The provenance gate: the location is autogenerated or a file-level
    location. *)
Definition passesGate (Loc : SILLocation) : Prop :=
  isAutoGenerated Loc = true ∨ isSILFileLocation Loc = true.

(** [unwrapped F V W]: [W] is [V] with one layer of [mark_uninitialized]
    taken off when [V] is the result of one, and [V] itself otherwise. *)
Inductive unwrapped (F : SILFunction) (V : SILValue) : SILValue → Prop :=
| unwrapped_mark Id X Op :
    getDef V = InstructionDef Id → getInst F Id = Some X →
    getKind X = MarkUninitializedInst Op → unwrapped F V Op
| unwrapped_plain :
    (∀ Id X Op, getDef V = InstructionDef Id → getInst F Id = Some X →
                getKind X ≠ MarkUninitializedInst Op) →
    unwrapped F V V.

(** The instruction [Id] of the function is an [alloc_stack]. *)
Definition isAllocStack (F : SILFunction) (Id : InstId) : Prop :=
  ∃ Y, getInst F Id = Some Y ∧ getKind Y = AllocStackInst.

(** The address result of an [alloc_stack] is its result 1. *)
Definition addressResult (Id : InstId) : SILValue :=
  mkValue (InstructionDef Id) 1.

(** The operands that [copy_addr] and [mark_uninitialized] take as
    addresses. *)
Definition addressOperands (X : SILInstruction) : list SILValue :=
  match getKind X with
  | CopyAddrInst Src Dest _ _ => [Src; Dest]
  | MarkUninitializedInst Op => [Op]
  | _ => []
  end.

(** Modelled from the spec: the typing of the two results of an
    [alloc_stack] (the SIL verifier is not among the sources).  Result 0,
    the lifecycle handle, is consumed by lifecycle instructions only; where
    a [copy_addr] or a [mark_uninitialized] takes a value of an
    [alloc_stack], it is the address, result 1. *)
Definition AddressTyped (F : SILFunction) : Prop :=
  ∀ X V A, X ∈ instructions F → V ∈ addressOperands X →
           dyn_cast_AllocStackInst F V = Some A → getResultNumber V = 1.

#[global] Instance AddressTyped_dec F : Decision (AddressTyped F).
Proof.
  refine (cast_if (decide (Forall (λ X,
            Forall (λ V, dyn_cast_AllocStackInst F V = None
                         ∨ getResultNumber V = 1)
                   (addressOperands X))
            (instructions F)))).
  - intros X V A HX HV HA. rewrite Forall_forall in f.
    specialize (f X HX). rewrite Forall_forall in f.
    destruct (f V HV) as [Hn|]; [congruence|done].
  - intros H. apply n. apply Forall_forall. intros X HX.
    apply Forall_forall. intros V HV.
    destruct (dyn_cast_AllocStackInst F V) as [A|] eqn:HA; [|by left].
    right. by eapply H.
Defined.

(** ** The drivers *)

(** The parameters of the function and the arguments of its blocks. *)
Definition signature (F : SILFunction)
  : list SILParameterInfo * list (list ArgId) :=
  (getInterfaceParameters F, getBBArgs <$> getBlocks F).

(** The outcomes of [processInOutValue] for the inout parameters from
    index [arg] on, in the order the driver calls it. *)
Fixpoint outcomes (Params : list SILParameterInfo) (arg : nat)
    (BBArgs : list ArgId) (Fn : SILFunction) : list bool :=
  match Params with
  | [] => []
  | P :: Params' =>
      if negb (isIndirectInOut P) then outcomes Params' (arg + 1) BBArgs Fn
      else
        match BBArgs !! arg with
        | None => []
        | Some InOutArg =>
            let (Fn', promoted) := processInOutValue InOutArg Fn in
            promoted :: outcomes Params' (arg + 1) BBArgs Fn'
        end
  end.


#[global] Instance SILBasicBlock_eq_dec : EqDecision SILBasicBlock.
Proof. solve_decision. Defined.

(** ** Measures and relations for the properties of a run *)

(** The function with the operand handles in another order. *)
Definition withUseOrder (order : list Operand) (F : SILFunction)
  : SILFunction :=
  mkFunction (getInterfaceParameters F) (getBlocks F) order.

(** [InOutArg] is the argument that the entry block of the function binds
    to one of its inout parameters. *)
Definition isInOutArgument (F : SILFunction) (InOutArg : ArgId) : Prop :=
  ∃ EntryBlock Bs arg P,
    getBlocks F = EntryBlock :: Bs
    ∧ getInterfaceParameters F !! arg = Some P
    ∧ isIndirectInOut P = true
    ∧ getBBArgs EntryBlock !! arg = Some InOutArg.

(** The arguments that the driver loop passes to [processInOutValue]. *)
Definition inOutArguments (F : SILFunction) : list ArgId :=
  match getBlocks F with
  | [] => []
  | EntryBlock :: _ =>
      omap (λ PA : SILParameterInfo * ArgId,
              if isIndirectInOut PA.1 then Some PA.2 else None)
        (zip (getInterfaceParameters F) (getBBArgs EntryBlock))
  end.

Lemma elem_of_inOutArguments F InOutArg :
  InOutArg ∈ inOutArguments F ↔ isInOutArgument F InOutArg.
Proof.
  unfold inOutArguments, isInOutArgument. split.
  - destruct (getBlocks F) as [|EntryBlock Bs]; [by intros ?%elem_of_nil|].
    intros ([P A] & HPA & Hio)%list_elem_of_omap. simpl in Hio.
    apply list_elem_of_lookup in HPA as [arg HPA].
    apply lookup_zip_Some in HPA as [HP HA].
    destruct (isIndirectInOut P) eqn:HP'; [|done]. injection Hio as ->.
    by exists EntryBlock, Bs, arg, P.
  - intros (EntryBlock & Bs & arg & P & -> & HP & Hio & HA).
    apply list_elem_of_omap. exists (P, InOutArg). simpl. rewrite Hio.
    split; [|done]. apply list_elem_of_lookup. exists arg.
    by apply lookup_zip_Some.
Qed.

#[global] Instance isInOutArgument_dec F InOutArg :
  Decision (isInOutArgument F InOutArg).
Proof.
  refine (cast_if (decide (InOutArg ∈ inOutArguments F)));
    by rewrite <- elem_of_inOutArguments.
Defined.

#[global] Instance isAllocStack_dec F Id : Decision (isAllocStack F Id).
Proof.
  unfold isAllocStack. destruct (getInst F Id) as [Y|].
  - destruct (decide (getKind Y = AllocStackInst)) as [e|n].
    + left. by exists Y.
    + right. intros (Y' & [= <-] & HK). done.
  - right. by intros (Y' & [=] & _).
Defined.

(** [g] changes a value only into an inout argument of [F], and only a
    value that is a result of an [alloc_stack] of [F]. *)
Definition replacesShadows (F : SILFunction) (g : SILValue → SILValue)
  : Prop :=
  ∀ V, g V = V
       ∨ ∃ InOutArg ASI, g V = argValue InOutArg
                         ∧ isInOutArgument F InOutArg
                         ∧ getDef V = InstructionDef ASI
                         ∧ isAllocStack F ASI.

Definition isAllocStackInst (X : SILInstruction) : Prop :=
  getKind X = AllocStackInst.

#[global] Instance isAllocStackInst_dec X : Decision (isAllocStackInst X).
Proof. unfold isAllocStackInst. apply _. Defined.

(** The number of [alloc_stack] instructions of the function. *)
Definition numAllocStack (F : SILFunction) : nat :=
  length (filter isAllocStackInst (instructions F)).

(** Block by block, [Bs'] has the arguments of [Bs] and a subsequence of
    its instructions, named by their identities. *)
Definition keepsOrder (Bs Bs' : list SILBasicBlock) : Prop :=
  Forall2 (λ B B', getBBArgs B' = getBBArgs B
                   ∧ sublist (getId <$> getInstList B')
                             (getId <$> getInstList B)) Bs Bs'.

(** The number of inout parameters of the functions of the module that
    have a body. *)
Fixpoint numInOutParameters (M : SILModule) : nat :=
  match M with
  | [] => 0
  | Fn :: M' =>
      match getBlocks Fn with
      | [] => numInOutParameters M'
      | _ :: _ =>
          length (filter (λ P, isIndirectInOut P = true)
                    (getInterfaceParameters Fn))
          + numInOutParameters M'
      end
  end.

(** The allocations that the recognizer returns at the uses of [D], in
    use-list order. *)
Definition recognized (F : SILFunction) (D : ValueBase) : list InstId :=
  omap (isCopyToOrFromStack F) (getUses D F).

(** Every inout argument has at most one shadow: at its uses the
    recognizer returns at most one allocation. *)
Definition OneShadowEach (F : SILFunction) : Prop :=
  ∀ InOutArg ASI1 ASI2,
    isInOutArgument F InOutArg →
    ASI1 ∈ recognized F (ArgumentDef InOutArg) →
    ASI2 ∈ recognized F (ArgumentDef InOutArg) →
    ASI1 = ASI2.

(** No recognized copy joins two stack allocations: at the uses of an
    [alloc_stack] the recognizer returns nothing. *)
Definition NoCopyBetweenStacks (F : SILFunction) : Prop :=
  ∀ Alloc, isAllocStack F Alloc → recognized F (InstructionDef Alloc) = [].

#[global] Instance OneShadowEach_dec F : Decision (OneShadowEach F).
Proof.
  refine (cast_if (decide (Forall (λ InOutArg,
            Forall (λ ASI1,
              Forall (λ ASI2, ASI1 = ASI2)
                (recognized F (ArgumentDef InOutArg)))
              (recognized F (ArgumentDef InOutArg)))
            (inOutArguments F)))).
  - intros A S1 S2 HA%elem_of_inOutArguments H1 H2.
    rewrite Forall_forall in f. specialize (f A HA).
    rewrite Forall_forall in f. specialize (f S1 H1).
    rewrite Forall_forall in f. by apply f.
  - intros H. apply n. apply Forall_forall. intros A HA.
    apply Forall_forall. intros S1 H1. apply Forall_forall. intros S2 H2.
    apply (H A S1 S2); [by apply elem_of_inOutArguments|done..].
Defined.

#[global] Instance NoCopyBetweenStacks_dec F :
  Decision (NoCopyBetweenStacks F).
Proof.
  refine (cast_if (decide (Forall (λ Id,
            isAllocStack F Id → recognized F (InstructionDef Id) = [])
            (getId <$> instructions F)))).
  - intros Alloc HAlloc. rewrite Forall_forall in f. apply f; [|done].
    destruct HAlloc as (Y & HY & _).
    apply lookupInst_Some in HY as [HY <-].
    apply list_elem_of_fmap. by exists Y.
  - intros H. apply n. apply Forall_forall. intros Id _. apply H.
Defined.

(** ** The loop of [promoteShadow] *)

Lemma promoteShadow_loop_eq Alloc InOutArg F :
  promoteShadow_loop Alloc InOutArg F =
  match getUses (InstructionDef Alloc) F with
  | [] => (F, 0)
  | Use :: _ =>
      let r := promoteShadow_loop Alloc InOutArg
                 (promoteShadow_iter InOutArg Use F) in
      (r.1, S r.2)
  end.
Proof.
  funelim (promoteShadow_loop Alloc InOutArg F).
  - by rewrite e.
  - by rewrite Heq.
Qed.

(** The rule of the loop: what holds before it and is kept by every
    iteration holds after it, and no use of the allocation is left. *)
Lemma promoteShadow_loop_invariant (Inv : SILFunction → Prop)
    Alloc InOutArg F :
  Inv F →
  (∀ F' Use rest,
     Inv F' → getUses (InstructionDef Alloc) F' = Use :: rest →
     Inv (promoteShadow_iter InOutArg Use F')) →
  Inv (promoteShadow_loop Alloc InOutArg F).1
  ∧ getUses (InstructionDef Alloc) (promoteShadow_loop Alloc InOutArg F).1
    = [].
Proof.
  intros HInv Hstep.
  funelim (promoteShadow_loop Alloc InOutArg F).
  - done.
  - simpl.
    match goal with IH : ∀ Inv : SILFunction → Prop, _ |- _ => apply IH end.
    + by eapply Hstep.
    + done.
Qed.

Lemma promoteShadow_loop_iterations Alloc InOutArg F :
  (promoteShadow_loop Alloc InOutArg F).2
  ≤ length (getUses (InstructionDef Alloc) F).
Proof.
  funelim (promoteShadow_loop Alloc InOutArg F).
  - simpl. lia.
  - simpl.
    pose proof (promoteShadow_iter_shrinks _ InOutArg _ _ _ Heq).
    match goal with IH : _ ≤ _ |- _ => revert IH end. lia.
Qed.

(** ** Well-formedness is kept by the graph operations *)

Lemma instructions_getInst F X :
  UniqueIds F → X ∈ instructions F → getInst F (getId X) = Some X.
Proof.
  unfold UniqueIds, getInst. induction (instructions F) as [|Y l IH].
  - intros _ H. by apply elem_of_nil in H.
  - rewrite fmap_cons, NoDup_cons. intros [Hnot Hnd] Hin. simpl.
    case_decide as Hid.
    + apply elem_of_cons in Hin as [->|Hin]; [done|].
      exfalso. apply Hnot. rewrite Hid. apply list_elem_of_fmap. eauto.
    + apply elem_of_cons in Hin as [->|Hin]; [done|]. by apply IH.
Qed.

Lemma UniqueIds_eraseFromParent Id F :
  UniqueIds F → UniqueIds (eraseFromParent Id F).
Proof.
  unfold UniqueIds. rewrite instructions_eraseFromParent.
  intros H. eapply sublist_NoDup; [exact H|].
  apply fmap_sublist, sublist_filter.
Qed.

Lemma UniqueIds_set U V F : UniqueIds F → UniqueIds (set U V F).
Proof.
  unfold UniqueIds. rewrite instructions_set, <- list_fmap_compose.
  intros H. erewrite list_fmap_ext; [exact H|].
  intros i X _. simpl. by case_decide.
Qed.

Lemma OperandsLinked_eraseFromParent Id F :
  OperandsLinked F → OperandsLinked (eraseFromParent Id F).
Proof.
  unfold OperandsLinked. intros H X n.
  rewrite instructions_eraseFromParent. simpl.
  intros [Hne Hin]%list_elem_of_filter Hn.
  apply list_elem_of_filter. split; [done|]. by apply H.
Qed.

Lemma OperandsLinked_set U V F :
  OperandsLinked F → OperandsLinked (set U V F).
Proof.
  unfold OperandsLinked. intros H X' n.
  rewrite instructions_set. simpl.
  intros (X & -> & Hin)%list_elem_of_fmap Hn.
  assert (mkOperand (getId X) n ∈ useOrder F) as Hlinked.
  { apply H; [done|]. revert Hn. case_decide; [|done].
    by rewrite getAllOperands_setOperandValue, length_insert. }
  replace (getId (if decide (getId X = getUser U)
                  then setOperandValue (getOperandNumber U) V X else X))
    with (getId X) by (by case_decide).
  destruct (decide (mkOperand (getId X) n = U)) as [->|Hne]; [left|].
  right. by apply list_elem_of_filter.
Qed.

Lemma WellFormed_eraseFromParent Id F :
  WellFormed F → WellFormed (eraseFromParent Id F).
Proof.
  intros [? ?].
  split; [by apply UniqueIds_eraseFromParent
         |by apply OperandsLinked_eraseFromParent].
Qed.

Lemma WellFormed_set U V F : WellFormed F → WellFormed (set U V F).
Proof.
  intros [? ?].
  split; [by apply UniqueIds_set|by apply OperandsLinked_set].
Qed.

Lemma WellFormed_promoteShadow_iter InOutArg Use F :
  WellFormed F → WellFormed (promoteShadow_iter InOutArg Use F).
Proof.
  intros HF. unfold promoteShadow_iter.
  destruct (get F Use) as [V|]; [|done].
  case_decide; [by apply WellFormed_eraseFromParent|].
  destruct (dyn_cast_CopyAddrInst F (getUser Use)) as [[[? ?] ?]|];
    [case_decide|];
    by (apply WellFormed_eraseFromParent || apply WellFormed_set).
Qed.

(** In a well-formed function the use list of a definition holds every
    operand that refers to it. *)
Lemma operand_in_getUses F X n V :
  WellFormed F → X ∈ instructions F → getAllOperands X !! n = Some V →
  mkOperand (getId X) n ∈ getUses (getDef V) F.
Proof.
  intros [Hu Hl] Hin Hn. unfold getUses. apply list_elem_of_filter. split.
  - exists V. split; [|done]. unfold get. simpl.
    by rewrite (instructions_getInst _ _ Hu Hin).
  - apply Hl; [done|]. by eapply lookup_lt_Some.
Qed.

Lemma use_empty_no_operand F D X V :
  WellFormed F → getUses D F = [] →
  X ∈ instructions F → V ∈ getAllOperands X → getDef V ≠ D.
Proof.
  intros HF Hempty Hin [n Hn]%list_elem_of_lookup <-.
  pose proof (operand_in_getUses _ _ _ _ HF Hin Hn) as H.
  rewrite Hempty in H. by apply elem_of_nil in H.
Qed.

(** ** The loop computes the one-pass transformation *)

Lemma filter_ext_elem {A} (P Q : A → Prop)
    `{!∀ x, Decision (P x), !∀ x, Decision (Q x)} (l : list A) :
  (∀ x, x ∈ l → P x ↔ Q x) → filter P l = filter Q l.
Proof.
  induction l as [|a l IH]; intros Hext; [done|].
  rewrite !filter_cons.
  rewrite IH by (intros; apply Hext; by right).
  pose proof (Hext a (list_elem_of_here _ _)) as Ha.
  destruct (decide (P a)), (decide (Q a)); tauto.
Qed.

Lemma elem_of_instructions F X :
  X ∈ instructions F ↔ ∃ B, B ∈ getBlocks F ∧ X ∈ getInstList B.
Proof.
  unfold instructions. induction (getBlocks F) as [|B Bs IH]; csimpl.
  - rewrite elem_of_nil. split; [done|]. intros (B & HB & _).
    by apply elem_of_nil in HB.
  - rewrite elem_of_app, IH. split.
    + intros [HX|(B' & HB' & HX)].
      * exists B. split; [left|done].
      * exists B'. split; [by right|done].
    + intros (B' & [->|HB']%elem_of_cons & HX); [by left|right; eauto].
Qed.

Lemma getAllOperands_mapOperands g X :
  getAllOperands (mapOperands g X) = g <$> getAllOperands X.
Proof.
  destruct X as [id loc k]. unfold getAllOperands, mapOperands. simpl.
  by destruct k.
Qed.

Lemma mapOperands_id g X :
  (∀ V, V ∈ getAllOperands X → g V = V) → mapOperands g X = X.
Proof.
  destruct X as [id loc k]. unfold getAllOperands, mapOperands. simpl.
  intros H. f_equal. destruct k as [|Op|Src Dest t i|Op|oc Ops]; simpl in *.
  - done.
  - rewrite H; [done|left].
  - rewrite !H; [done|right; left|left].
  - rewrite H; [done|left].
  - f_equal. induction Ops as [|V Ops IH]; [done|]. csimpl.
    rewrite H by left. f_equal. apply IH. intros. apply H. by right.
Qed.

Section PromotionFacts.
Variable Alloc : InstId.
Variable InOutArg : ArgId.

Lemma redirect_alloc V :
  getDef V = InstructionDef Alloc →
  redirect Alloc InOutArg V = argValue InOutArg.
Proof. intros. unfold redirect. by rewrite decide_True. Qed.

Lemma redirect_other V :
  getDef V ≠ InstructionDef Alloc → redirect Alloc InOutArg V = V.
Proof. intros. unfold redirect. by rewrite decide_False. Qed.

Lemma redirect_arg :
  redirect Alloc InOutArg (argValue InOutArg) = argValue InOutArg.
Proof. by apply redirect_other. Qed.

(** When no operand refers to the allocation, only the allocation itself
    is left to erase. *)
Lemma deshadowInstList_use_empty l :
  (∀ X V, X ∈ l → V ∈ getAllOperands X → getDef V ≠ InstructionDef Alloc) →
  deshadowInstList Alloc InOutArg l = filter (λ X, getId X ≠ Alloc) l.
Proof.
  intros H. unfold deshadowInstList.
  rewrite (filter_ext_elem _ (λ X, getId X ≠ Alloc)).
  - induction l as [|X l IH]; [done|].
    rewrite filter_cons. case_decide; csimpl.
    + rewrite mapOperands_id.
      * f_equal. apply IH. intros. eapply H; [by right|done].
      * intros V HV. apply redirect_other. eapply H; [left|done].
    + apply IH. intros. eapply H; [by right|done].
  - intros X HX. split.
    + intros Hn Hid. apply Hn. by left.
    + intros Hid [?|[Hl|[Hc|Hc]]]; [done|..].
      * by eapply H.
      * unfold isShadowCopy in Hc. unfold getAllOperands in H.
        specialize (H X).
        destruct (getKind X) as [|Op|Src Dest t i|Op|oc Ops]; try done.
        destruct Hc as [[Hs _]|[_ Hd]].
        -- eapply (H Src); [done|left|done].
        -- eapply (H Dest); [done|right; left|done].
      * unfold isSelfCopy in Hc. unfold getAllOperands in H.
        specialize (H X).
        destruct (getKind X) as [|Op|Src Dest t i|Op|oc Ops]; try done.
        destruct Hc as [Hs _]. eapply (H Src); [done|left|done].
Qed.

(** Erasing an instruction that promotion erases does not change the
    outcome. *)
Lemma deshadowInstList_erase User l :
  (∀ X, X ∈ l → getId X = User → erasedByPromotion Alloc InOutArg X) →
  deshadowInstList Alloc InOutArg (filter (λ X, getId X ≠ User) l)
  = deshadowInstList Alloc InOutArg l.
Proof.
  intros H. unfold deshadowInstList. f_equal.
  rewrite list_filter_filter. apply filter_ext_elem.
  intros X HX. split; [by intros [? ?]|].
  intros Hn. split; [done|]. intros Hid. by apply Hn, H.
Qed.

(** Redirecting one operand does not change the outcome when it changes
    neither whether the instruction is erased nor what it is redirected
    to. *)
Lemma deshadowInstList_set User n l :
  (∀ X, X ∈ l → getId X = User →
     (erasedByPromotion Alloc InOutArg
        (setOperandValue n (argValue InOutArg) X)
      ↔ erasedByPromotion Alloc InOutArg X)
     ∧ mapOperands (redirect Alloc InOutArg)
         (setOperandValue n (argValue InOutArg) X)
       = mapOperands (redirect Alloc InOutArg) X) →
  deshadowInstList Alloc InOutArg
    ((λ X, if decide (getId X = User)
           then setOperandValue n (argValue InOutArg) X else X) <$> l)
  = deshadowInstList Alloc InOutArg l.
Proof.
  unfold deshadowInstList. induction l as [|X l IH]; intros H; [done|].
  csimpl. rewrite !filter_cons.
  assert (IH' := IH (λ Y HY, H Y (list_elem_of_further _ _ _ HY))).
  destruct (decide (getId X = User)) as [Hid|Hid].
  - destruct (H X (list_elem_of_here _ _) Hid) as [He Hm].
    destruct (decide (¬ erasedByPromotion Alloc InOutArg
                          (setOperandValue n (argValue InOutArg) X)));
      destruct (decide (¬ erasedByPromotion Alloc InOutArg X)); csimpl;
      try tauto.
    by rewrite Hm, IH'.
  - case_decide; csimpl; by rewrite IH'.
Qed.
End PromotionFacts.

Section PromotionSteps.
Variable Alloc : InstId.
Variable InOutArg : ArgId.

(** What [setOperandValue] does to the classification, for an operand
    that refers to a result of the allocation other than result 0. *)
Lemma erasedByPromotion_setOperandValue X n V :
  getAllOperands X !! n = Some V →
  getDef V = InstructionDef Alloc → getResultNumber V ≠ 0 →
  (∀ Src Dest t i, getKind X = CopyAddrInst Src Dest t i →
     Src ≠ argValue InOutArg ∧ Dest ≠ argValue InOutArg) →
  erasedByPromotion Alloc InOutArg (setOperandValue n (argValue InOutArg) X)
  ↔ erasedByPromotion Alloc InOutArg X.
Proof.
  intros Hn HD HR Hcopy.
  assert (isLifecycleUser Alloc (setOperandValue n (argValue InOutArg) X)
          ↔ isLifecycleUser Alloc X) as Hlife.
  { unfold isLifecycleUser. rewrite getAllOperands_setOperandValue.
    rewrite !list_elem_of_lookup. split; intros [m Hm]; exists m.
    - destruct (decide (n = m)) as [->|Hne].
      + rewrite list_lookup_insert_eq in Hm by (by eapply lookup_lt_Some).
        done.
      + by rewrite list_lookup_insert_ne in Hm.
    - destruct (decide (n = m)) as [->|Hne].
      + rewrite Hn in Hm. inversion Hm; subst. done.
      + by rewrite list_lookup_insert_ne. }
  unfold erasedByPromotion. rewrite Hlife.
  assert (isShadowCopy Alloc InOutArg
            (setOperandValue n (argValue InOutArg) X)
          ∨ isSelfCopy Alloc (setOperandValue n (argValue InOutArg) X)
          ↔ isShadowCopy Alloc InOutArg X ∨ isSelfCopy Alloc X) as Hc.
  { destruct X as [id loc k]. unfold isShadowCopy, isSelfCopy.
    unfold getAllOperands in Hn. simpl in *.
    destruct k as [|Op|Src Dest t i|Op|oc Ops]; try tauto.
    - destruct n; simpl; tauto.
    - destruct (Hcopy _ _ _ _ eq_refl) as [HS HDst].
      destruct n as [|[|n]]; simpl in *; [| |done].
      + inversion Hn; subst. unfold argValue in *. simpl.
        intuition congruence.
      + inversion Hn; subst. unfold argValue in *. simpl.
        intuition congruence.
    - destruct n; simpl; tauto. }
  simpl. tauto.
Qed.

Lemma mapOperands_redirect_setOperandValue X n V :
  getAllOperands X !! n = Some V →
  getDef V = InstructionDef Alloc →
  mapOperands (redirect Alloc InOutArg)
    (setOperandValue n (argValue InOutArg) X)
  = mapOperands (redirect Alloc InOutArg) X.
Proof.
  intros Hn HD. destruct X as [id loc k].
  unfold mapOperands, setOperandValue, getAllOperands in *. simpl in *.
  f_equal.
  destruct k as [|Op|Src Dest t i|Op|oc Ops]; simpl in *.
  - done.
  - destruct n; [|done]. inversion Hn; subst.
    by rewrite redirect_arg, (redirect_alloc _ _ _ HD).
  - destruct n as [|[|n]]; [| |done]; inversion Hn; subst;
      by rewrite redirect_arg, (redirect_alloc _ _ _ HD).
  - destruct n; [|done]. inversion Hn; subst.
    by rewrite redirect_arg, (redirect_alloc _ _ _ HD).
  - f_equal. rewrite list_fmap_insert, redirect_arg.
    apply list_insert_id. rewrite list_lookup_fmap, Hn. simpl.
    by rewrite (redirect_alloc _ _ _ HD).
Qed.

Lemma getBlocks_eraseFromParent Id F :
  getBlocks (eraseFromParent Id F)
  = (λ B, mkBlock (getBBArgs B)
            (filter (λ X, getId X ≠ Id) (getInstList B))) <$> getBlocks F.
Proof. done. Qed.

Lemma getBlocks_set U V F :
  getBlocks (set U V F)
  = (λ B, mkBlock (getBBArgs B)
            ((λ X, if decide (getId X = getUser U)
                   then setOperandValue (getOperandNumber U) V X else X)
             <$> getInstList B)) <$> getBlocks F.
Proof. done. Qed.

Lemma deshadowBlocks_eraseFromParent User F :
  (∀ X, X ∈ instructions F → getId X = User →
        erasedByPromotion Alloc InOutArg X) →
  deshadowBlocks Alloc InOutArg (getBlocks (eraseFromParent User F))
  = deshadowBlocks Alloc InOutArg (getBlocks F).
Proof.
  intros H. rewrite getBlocks_eraseFromParent. unfold deshadowBlocks.
  rewrite <- list_fmap_compose. apply list_fmap_ext.
  intros i B HB. simpl. f_equal. apply deshadowInstList_erase.
  intros X HX. apply H. apply elem_of_instructions.
  exists B. split; [|done]. by eapply list_elem_of_lookup_2.
Qed.

Lemma deshadowBlocks_set User n F :
  (∀ X, X ∈ instructions F → getId X = User →
     (erasedByPromotion Alloc InOutArg
        (setOperandValue n (argValue InOutArg) X)
      ↔ erasedByPromotion Alloc InOutArg X)
     ∧ mapOperands (redirect Alloc InOutArg)
         (setOperandValue n (argValue InOutArg) X)
       = mapOperands (redirect Alloc InOutArg) X) →
  deshadowBlocks Alloc InOutArg
    (getBlocks (set (mkOperand User n) (argValue InOutArg) F))
  = deshadowBlocks Alloc InOutArg (getBlocks F).
Proof.
  intros H. rewrite getBlocks_set. unfold deshadowBlocks.
  rewrite <- list_fmap_compose. apply list_fmap_ext.
  intros i B HB. simpl. f_equal. apply deshadowInstList_set.
  intros X HX. apply H. apply elem_of_instructions.
  exists B. split; [|done]. by eapply list_elem_of_lookup_2.
Qed.

(** An iteration of the loop leaves the outcome of the one-pass
    transformation as it was. *)
Lemma deshadowBlocks_promoteShadow_iter Use rest F :
  WellFormed F →
  getUses (InstructionDef Alloc) F = Use :: rest →
  deshadowBlocks Alloc InOutArg (getBlocks (promoteShadow_iter InOutArg Use F))
  = deshadowBlocks Alloc InOutArg (getBlocks F).
Proof.
  intros HF Huses.
  assert (HUse : Use ∈ getUses (InstructionDef Alloc) F)
    by (rewrite Huses; left).
  unfold getUses in HUse.
  apply list_elem_of_filter in HUse as [(V & HV & HD) _].
  unfold promoteShadow_iter. rewrite HV.
  unfold get in HV.
  destruct (getInst F (getUser Use)) as [X|] eqn:HX; simpl in HV; [|done].
  assert (Hthe : ∀ Y, Y ∈ instructions F → getId Y = getUser Use → Y = X).
  { intros Y HY Hid. destruct HF as [Hu _].
    pose proof (instructions_getInst _ _ Hu HY) as HY'.
    rewrite Hid, HX in HY'. by inversion HY'. }
  case_decide as HR.
  - (* a use of result 0 *)
    apply deshadowBlocks_eraseFromParent. intros Y HY Hid.
    rewrite (Hthe Y HY Hid). right; left. unfold isLifecycleUser.
    apply list_elem_of_lookup. exists (getOperandNumber Use).
    rewrite HV. f_equal. destruct V; simpl in *; by subst.
  - unfold dyn_cast_CopyAddrInst. rewrite HX.
    destruct Use as [User n]. simpl in *.
    destruct (getKind X) as [|Op|Src Dest t i|Op|oc Ops] eqn:HK.
    all: try (apply deshadowBlocks_set; intros Y HY Hid;
              rewrite (Hthe Y HY Hid); split;
              [eapply erasedByPromotion_setOperandValue; eauto;
               intros ? ? ? ? HK'; by rewrite HK in HK'
              |by eapply mapOperands_redirect_setOperandValue]).
    case_decide as Harg.
    + (* a copy between the allocation and the argument *)
      apply deshadowBlocks_eraseFromParent. intros Y HY Hid.
      rewrite (Hthe Y HY Hid). right; right; left.
      unfold isShadowCopy. rewrite HK.
      unfold getAllOperands in HV. rewrite HK in HV.
      destruct n as [|[|n]]; simpl in HV; [| |done];
        inversion HV; subst; unfold argValue in *;
        destruct Harg as [Harg|Harg];
        try (rewrite Harg in HD; simpl in HD; done); [by left|by right].
    + apply deshadowBlocks_set; intros Y HY Hid.
      rewrite (Hthe Y HY Hid). split.
      * eapply erasedByPromotion_setOperandValue; eauto.
        intros ? ? ? ? HK'. rewrite HK in HK'. inversion HK'; subst.
        tauto.
      * by eapply mapOperands_redirect_setOperandValue.
Qed.

(** The loop followed by the erasure of the allocation is the one-pass
    transformation. *)
Lemma promoteShadow_getBlocks F :
  WellFormed F →
  getBlocks (promoteShadow Alloc InOutArg F)
  = deshadowBlocks Alloc InOutArg (getBlocks F).
Proof.
  intros HF.
  destruct (promoteShadow_loop_invariant
    (λ F', WellFormed F'
           ∧ deshadowBlocks Alloc InOutArg (getBlocks F')
             = deshadowBlocks Alloc InOutArg (getBlocks F))
    Alloc InOutArg F) as [[HF' HT] Hempty].
  - done.
  - intros F' Use rest [HF' HT] Huses. split.
    + by apply WellFormed_promoteShadow_iter.
    + rewrite <- HT. by eapply deshadowBlocks_promoteShadow_iter.
  - unfold promoteShadow. rewrite <- HT, getBlocks_eraseFromParent.
    unfold deshadowBlocks. apply list_fmap_ext. intros i B HB. simpl.
    f_equal. symmetry. apply deshadowInstList_use_empty.
    intros X V HX HV. eapply use_empty_no_operand; eauto.
    apply elem_of_instructions. exists B. split; [|done].
    by eapply list_elem_of_lookup_2.
Qed.
End PromotionSteps.

(** ** The instructions after promotion *)

Section AfterPromotion.
Variable Alloc : InstId.
Variable InOutArg : ArgId.

Lemma deshadowInstList_app l1 l2 :
  deshadowInstList Alloc InOutArg (l1 ++ l2)
  = deshadowInstList Alloc InOutArg l1 ++ deshadowInstList Alloc InOutArg l2.
Proof. unfold deshadowInstList. by rewrite filter_app, fmap_app. Qed.

Lemma promoteShadow_instructions F :
  WellFormed F →
  instructions (promoteShadow Alloc InOutArg F)
  = deshadowInstList Alloc InOutArg (instructions F).
Proof.
  intros HF. unfold instructions. rewrite promoteShadow_getBlocks by done.
  unfold deshadowBlocks.
  induction (getBlocks F) as [|B Bs IH]; csimpl; [done|].
  by rewrite deshadowInstList_app, IH.
Qed.

Lemma lookupInst_None Id l : Id ∉ getId <$> l → lookupInst Id l = None.
Proof.
  induction l as [|X l IH]; [done|]. csimpl. intros Hn.
  apply not_elem_of_cons in Hn as [Hne Hn].
  rewrite decide_False by done. by apply IH.
Qed.

Lemma deshadowInstList_ids l Id :
  Id ∈ getId <$> deshadowInstList Alloc InOutArg l → Id ∈ getId <$> l.
Proof.
  unfold deshadowInstList. rewrite <- list_fmap_compose.
  intros (X & -> & HX)%list_elem_of_fmap.
  apply list_elem_of_filter in HX as [_ HX].
  apply list_elem_of_fmap. by exists X.
Qed.

Lemma lookupInst_deshadowInstList l X :
  NoDup (getId <$> l) → X ∈ l →
  lookupInst (getId X) (deshadowInstList Alloc InOutArg l)
  = if decide (erasedByPromotion Alloc InOutArg X) then None
    else Some (mapOperands (redirect Alloc InOutArg) X).
Proof.
  induction l as [|Y l IH]; [by intros _ ?%elem_of_nil|].
  rewrite fmap_cons, NoDup_cons. intros [Hnot Hnd] Hin.
  unfold deshadowInstList in *. rewrite filter_cons.
  apply elem_of_cons in Hin as [->|Hin].
  - destruct (decide (erasedByPromotion Alloc InOutArg Y)) as [He|He].
    + rewrite decide_False by tauto. apply lookupInst_None.
      intros H. by apply Hnot, deshadowInstList_ids.
    + rewrite decide_True by done. csimpl. by case_decide.
  - assert (getId Y ≠ getId X) as Hne.
    { intros Heq. apply Hnot. rewrite Heq. apply list_elem_of_fmap. eauto. }
    destruct (decide (¬ erasedByPromotion Alloc InOutArg Y)); csimpl;
      [rewrite decide_False by done|]; by apply IH.
Qed.

(** An instruction of the function after promotion: gone when promotion
    erases it, otherwise in place with its operands redirected. *)
Lemma getInst_promoteShadow F X :
  WellFormed F → X ∈ instructions F →
  getInst (promoteShadow Alloc InOutArg F) (getId X)
  = if decide (erasedByPromotion Alloc InOutArg X) then None
    else Some (mapOperands (redirect Alloc InOutArg) X).
Proof.
  intros HF HX. unfold getInst. rewrite promoteShadow_instructions by done.
  apply lookupInst_deshadowInstList; [apply HF|done].
Qed.

Lemma getDef_redirect V :
  getDef (redirect Alloc InOutArg V) ≠ InstructionDef Alloc.
Proof. unfold redirect. by case_decide. Qed.

Lemma promoteShadow_no_operand F X V :
  WellFormed F →
  X ∈ instructions (promoteShadow Alloc InOutArg F) →
  V ∈ getAllOperands X → getDef V ≠ InstructionDef Alloc.
Proof.
  intros HF. rewrite promoteShadow_instructions by done.
  unfold deshadowInstList.
  intros (X0 & -> & _)%list_elem_of_fmap.
  rewrite getAllOperands_mapOperands.
  intros (V0 & -> & _)%list_elem_of_fmap. apply getDef_redirect.
Qed.
End AfterPromotion.

(** ** What the pass leaves alone *)

Lemma WellFormed_promoteShadow Alloc InOutArg F :
  WellFormed F → WellFormed (promoteShadow Alloc InOutArg F).
Proof.
  intros HF. apply WellFormed_eraseFromParent.
  apply (promoteShadow_loop_invariant WellFormed); [done|].
  intros ? ? ? ? _. by apply WellFormed_promoteShadow_iter.
Qed.

Lemma signature_mapInstLists f F order :
  signature (mapInstLists f F order) = signature F.
Proof.
  unfold signature, mapInstLists. simpl. f_equal.
  rewrite <- list_fmap_compose. by apply list_fmap_ext.
Qed.

Lemma signature_promoteShadow_iter InOutArg Use F :
  signature (promoteShadow_iter InOutArg Use F) = signature F.
Proof.
  unfold promoteShadow_iter. destruct (get F Use); [|done].
  case_decide; [apply signature_mapInstLists|].
  destruct (dyn_cast_CopyAddrInst F (getUser Use)) as [[[? ?] ?]|];
    [case_decide|]; apply signature_mapInstLists.
Qed.

Lemma signature_promoteShadow Alloc InOutArg F :
  signature (promoteShadow Alloc InOutArg F) = signature F.
Proof.
  unfold promoteShadow, eraseFromParent. rewrite signature_mapInstLists.
  apply (promoteShadow_loop_invariant (λ F', signature F' = signature F));
    [done|].
  intros F' Use rest HF' _. by rewrite signature_promoteShadow_iter.
Qed.

(** ** The scan of [processInOutValue] *)

Lemma processInOutValue_scan_no_match Uses InOutArg F :
  (∀ UI, UI ∈ Uses → isCopyToOrFromStack F UI = None) →
  processInOutValue_scan Uses InOutArg F = (F, false).
Proof.
  induction Uses as [|UI Uses IH]; intros H; [done|]. simpl.
  rewrite H by left. apply IH. intros. apply H. by right.
Qed.

Lemma processInOutValue_scan_first_match pre UI post ASI InOutArg F :
  (∀ U, U ∈ pre → isCopyToOrFromStack F U = None) →
  isCopyToOrFromStack F UI = Some ASI →
  processInOutValue_scan (pre ++ UI :: post) InOutArg F
  = (promoteShadow ASI InOutArg F, true).
Proof.
  intros Hpre HUI. induction pre as [|U pre IH]; simpl.
  - by rewrite HUI.
  - rewrite Hpre by left. apply IH. intros. apply Hpre. by right.
Qed.

(** [processInOutValue] either leaves the function as it is or promotes an
    allocation that the recognizer returned for a use of the argument. *)
Lemma processInOutValue_cases InOutArg F :
  processInOutValue InOutArg F = (F, false)
  ∨ ∃ UI ASI, UI ∈ getUses (ArgumentDef InOutArg) F
              ∧ isCopyToOrFromStack F UI = Some ASI
              ∧ processInOutValue InOutArg F
                = (promoteShadow ASI InOutArg F, true).
Proof.
  unfold processInOutValue.
  induction (getUses (ArgumentDef InOutArg) F) as [|UI Uses IH]; [by left|].
  simpl. destruct (isCopyToOrFromStack F UI) as [ASI|] eqn:HUI.
  - right. exists UI, ASI. split; [left|done].
  - destruct IH as [IH|(UI' & ASI & Hin & Hm & Hr)]; [by left|].
    right. exists UI', ASI. split; [by right|done].
Qed.

Lemma signature_processInOutValue InOutArg F :
  signature (processInOutValue InOutArg F).1 = signature F.
Proof.
  destruct (processInOutValue_cases InOutArg F) as [->|(? & ? & _ & _ & ->)];
    [done|apply signature_promoteShadow].
Qed.

Lemma WellFormed_processInOutValue InOutArg F :
  WellFormed F → WellFormed (processInOutValue InOutArg F).1.
Proof.
  intros HF.
  destruct (processInOutValue_cases InOutArg F) as [->|(? & ? & _ & _ & ->)];
    [done|by apply WellFormed_promoteShadow].
Qed.

(** ** The recognizer *)

Lemma isCopyToOrFromStack_AllocStackInst F UI ASI :
  isCopyToOrFromStack F UI = Some ASI →
  ∃ Y, getInst F ASI = Some Y ∧ getKind Y = AllocStackInst.
Proof.
  unfold isCopyToOrFromStack.
  destruct (dyn_cast_CopyAddrInst F (getUser UI)) as [[[Loc Src] Dest]|];
    [|done].
  destruct (negb (isAutoGenerated Loc) && negb (isSILFileLocation Loc));
    [done|].
  unfold dyn_cast_AllocStackInst.
  match goal with |- context [getDef ?V] => destruct (getDef V) as [|Id] end;
    [done|].
  destruct (getInst F Id) as [Y|] eqn:HY; [|done].
  destruct (getKind Y) eqn:HK; try done.
  intros [= <-]. eauto.
Qed.


(** ** The two drivers *)

Lemma performInOutDeshadowing_args_runOnFunction_args Params arg BBArgs F S :
  performInOutDeshadowing_args Params arg BBArgs F S
  = runOnFunction_args Params arg BBArgs F S.
Proof.
  revert arg F S. induction Params as [|P Params IH]; intros arg F S; [done|].
  simpl. destruct (negb (isIndirectInOut P)); [apply IH|].
  destruct (BBArgs !! arg); [|done].
  destruct (processInOutValue a F). apply IH.
Qed.

Lemma runOnFunction_args_is_Some Params arg BBArgs F S :
  arg + length Params ≤ length BBArgs →
  is_Some (runOnFunction_args Params arg BBArgs F S).
Proof.
  revert arg F S. induction Params as [|P Params IH]; intros arg F S Hlen;
    [by eexists|].
  simpl in *. destruct (negb (isIndirectInOut P)); [apply IH; lia|].
  destruct (lookup_lt_is_Some_2 BBArgs arg) as [A HA]; [lia|].
  rewrite HA. destruct (processInOutValue A F). apply IH. lia.
Qed.

Lemma dyn_cast_MarkUninitializedInst_unwrapped F V W :
  unwrapped F V W ↔
  W = match dyn_cast_MarkUninitializedInst F V with
      | Some Op => Op
      | None => V
      end.
Proof.
  unfold dyn_cast_MarkUninitializedInst. split.
  - intros [Id X Op HD HX HK|Hplain].
    + by rewrite HD, HX, HK.
    + destruct (getDef V) as [|Id]; [done|].
      destruct (getInst F Id) as [X|] eqn:HX; [|done].
      destruct (getKind X) eqn:HK; try done.
      exfalso. by eapply Hplain.
  - intros ->. destruct (getDef V) as [|Id] eqn:HD.
    { apply unwrapped_plain. intros. congruence. }
    destruct (getInst F Id) as [X|] eqn:HX.
    2:{ apply unwrapped_plain. intros. congruence. }
    destruct (getKind X) eqn:HK;
      try (apply unwrapped_plain; intros; congruence).
    by eapply unwrapped_mark.
Qed.

Lemma promoteShadow_iter_cases InOutArg Use F :
  is_Some (get F Use) →
  promoteShadow_iter InOutArg Use F = eraseFromParent (getUser Use) F
  ∨ promoteShadow_iter InOutArg Use F = set Use (argValue InOutArg) F.
Proof.
  intros [V HV]. unfold promoteShadow_iter. rewrite HV.
  case_decide; [by left|].
  destruct (dyn_cast_CopyAddrInst F (getUser Use)) as [[[? ?] ?]|];
    [case_decide|]; auto.
Qed.

(** ** A run of the pass over the parameters *)



Lemma isAllocStack_promoteShadow_inv Alloc InOutArg F Id :
  WellFormed F → isAllocStack (promoteShadow Alloc InOutArg F) Id →
  isAllocStack F Id.
Proof.
  intros HF (Y1 & HY1 & HK). apply lookupInst_Some in HY1 as [HY1 Hid].
  rewrite promoteShadow_instructions in HY1 by done.
  unfold deshadowInstList in HY1.
  apply list_elem_of_fmap in HY1 as (Y & -> & HY).
  apply list_elem_of_filter in HY as [_ HY].
  exists Y. split.
  - rewrite <- Hid. simpl. by apply instructions_getInst; [apply HF|].
  - unfold mapOperands in HK. simpl in HK. by destruct (getKind Y).
Qed.



Lemma signature_runOnFunction_args Params arg BBArgs F S F' S' :
  runOnFunction_args Params arg BBArgs F S = Some (F', S') →
  signature F' = signature F.
Proof.
  revert arg F S. induction Params as [|P Params IH]; intros arg F S.
  - by intros [= <- <-].
  - simpl. destruct (negb (isIndirectInOut P)); [by apply IH|].
    destruct (BBArgs !! arg) as [A|]; [|done].
    pose proof (signature_processInOutValue A F) as Hs.
    destruct (processInOutValue A F) as [F1 b]. simpl in Hs.
    intros Hrun. apply IH in Hrun. congruence.
Qed.

Lemma runOnFunction_args_defined Params arg BBArgs F St r j P :
  runOnFunction_args Params arg BBArgs F St = Some r →
  Params !! j = Some P → isIndirectInOut P = true →
  is_Some (BBArgs !! (arg + j)).
Proof.
  revert arg F St j. induction Params as [|Q Params IH]; intros arg F St j;
    [done|].
  simpl. destruct j as [|j]; simpl.
  - intros Hrun [= ->] Hio. rewrite Hio in Hrun. simpl in Hrun.
    rewrite Nat.add_0_r.
    destruct (BBArgs !! arg); [by eexists|done].
  - intros Hrun HP Hio.
    replace (arg + S j) with (arg + 1 + j) by lia.
    destruct (negb (isIndirectInOut Q)); [by eapply IH|].
    destruct (BBArgs !! arg) as [A|]; [|done].
    destruct (processInOutValue A F). by eapply IH.
Qed.


Lemma promoteShadow_length Alloc InOutArg F :
  WellFormed F →
  length (instructions (promoteShadow Alloc InOutArg F))
  ≤ length (instructions F).
Proof.
  intros HF. rewrite promoteShadow_instructions by done.
  unfold deshadowInstList. rewrite length_fmap. apply length_filter.
Qed.

Lemma promoteShadow_length_lt Alloc InOutArg F :
  WellFormed F → isAllocStack F Alloc →
  length (instructions (promoteShadow Alloc InOutArg F))
  < length (instructions F).
Proof.
  intros HF (Y & HY & _). rewrite promoteShadow_instructions by done.
  unfold deshadowInstList. rewrite length_fmap.
  apply lookupInst_Some in HY as [HY Hid].
  apply (length_filter_lt _ _ Y); [done|].
  intros Hn. apply Hn. by left.
Qed.

Lemma runOnFunction_args_length Params arg BBArgs F St F' St' :
  WellFormed F →
  runOnFunction_args Params arg BBArgs F St = Some (F', St') →
  length (instructions F') ≤ length (instructions F).
Proof.
  revert arg F St. induction Params as [|P Params IH]; intros arg F St HF.
  - by intros [= <- <-].
  - simpl. destruct (negb (isIndirectInOut P)); [by apply IH|].
    destruct (BBArgs !! arg) as [A|]; [|done].
    pose proof (WellFormed_processInOutValue A F HF) as HF1.
    destruct (processInOutValue_cases A F) as [Hr|(UI & ASI & _ & _ & Hr)];
      rewrite Hr in *; simpl in HF1; intros Hrun.
    + by eapply IH.
    + apply IH in Hrun; [|done].
      pose proof (promoteShadow_length ASI A F HF). lia.
Qed.

(** When the recognizer matches a use of the argument,
    [processInOutValue] promotes an [alloc_stack] of the function. *)
Lemma processInOutValue_promotes InOutArg F UI ASI :
  UI ∈ getUses (ArgumentDef InOutArg) F →
  isCopyToOrFromStack F UI = Some ASI →
  ∃ ASI', isAllocStack F ASI'
          ∧ processInOutValue InOutArg F
            = (promoteShadow ASI' InOutArg F, true).
Proof.
  unfold processInOutValue.
  induction (getUses (ArgumentDef InOutArg) F) as [|U Uses IH];
    [by intros ?%elem_of_nil|].
  intros HUI Hm. simpl.
  destruct (isCopyToOrFromStack F U) as [ASI'|] eqn:HU.
  - exists ASI'. split; [|done].
    by eapply isCopyToOrFromStack_AllocStackInst.
  - apply elem_of_cons in HUI as [->|HUI]; [congruence|]. by apply IH.
Qed.

Lemma runOnFunction_args_promotes
    Params arg BBArgs F St F' St' j P InOutArg UI ASI :
  WellFormed F →
  runOnFunction_args Params arg BBArgs F St = Some (F', St') →
  Params !! j = Some P → isIndirectInOut P = true →
  BBArgs !! (arg + j) = Some InOutArg →
  UI ∈ getUses (ArgumentDef InOutArg) F →
  isCopyToOrFromStack F UI = Some ASI →
  length (instructions F') < length (instructions F).
Proof.
  revert arg F St j. induction Params as [|Q Params IH];
    intros arg F St j HF; [done|].
  simpl. intros Hrun HP Hio HA HUI Hm.
  destruct j as [|j]; simpl in HP.
  - injection HP as ->. rewrite Hio in Hrun. simpl in Hrun.
    rewrite Nat.add_0_r in HA. rewrite HA in Hrun.
    destruct (processInOutValue_promotes _ _ _ _ HUI Hm)
      as (ASI' & HAS & Hr).
    rewrite Hr in Hrun.
    apply runOnFunction_args_length in Hrun;
      [|by apply WellFormed_promoteShadow].
    pose proof (promoteShadow_length_lt ASI' InOutArg F HF HAS). lia.
  - replace (arg + S j) with (arg + 1 + j) in HA by lia.
    destruct (negb (isIndirectInOut Q)); [by eapply IH|].
    destruct (BBArgs !! arg) as [A|]; [|done].
    pose proof (WellFormed_processInOutValue A F HF) as HF1.
    destruct (processInOutValue_cases A F)
      as [Hr|(UI' & ASI' & HUI' & Hm' & Hr)];
      rewrite Hr in *; simpl in HF1.
    + by eapply IH.
    + apply runOnFunction_args_length in Hrun; [|done].
      pose proof (promoteShadow_length_lt ASI' A F HF
                    (isCopyToOrFromStack_AllocStackInst _ _ _ Hm')).
      lia.
Qed.

Lemma WellFormed_runOnFunction_args Params arg BBArgs F St F' St' :
  WellFormed F →
  runOnFunction_args Params arg BBArgs F St = Some (F', St') →
  WellFormed F'.
Proof.
  revert arg F St. induction Params as [|P Params IH]; intros arg F St HF.
  - by intros [= <- <-].
  - simpl. destruct (negb (isIndirectInOut P)); [by apply IH|].
    destruct (BBArgs !! arg) as [A|]; [|done].
    pose proof (WellFormed_processInOutValue A F HF) as HF1.
    destruct (processInOutValue A F) as [F1 b]. by apply IH.
Qed.

Lemma instructions_getBlocks F1 F2 :
  getBlocks F1 = getBlocks F2 → instructions F1 = instructions F2.
Proof. unfold instructions. by intros ->. Qed.

Lemma runOnFunction_args_total Params arg BBArgs F St :
  (∀ j P, Params !! j = Some P → isIndirectInOut P = true →
          is_Some (BBArgs !! (arg + j))) →
  is_Some (runOnFunction_args Params arg BBArgs F St).
Proof.
  revert arg F St. induction Params as [|P Params IH]; intros arg F St H;
    [by eexists|].
  simpl.
  assert (∀ F1 St1,
            is_Some (runOnFunction_args Params (arg + 1) BBArgs F1 St1))
    as Hrest.
  { intros F1 St1. apply IH. intros j Q HQ Hio.
    replace (arg + 1 + j) with (arg + S j) by lia. by apply (H (S j) Q). }
  destruct (isIndirectInOut P) eqn:Hio; simpl; [|apply Hrest].
  destruct (H 0 P eq_refl Hio) as [A HA].
  rewrite Nat.add_0_r in HA. rewrite HA.
  destruct (processInOutValue A F). apply Hrest.
Qed.

Lemma runOnFunction_args_counters Params arg BBArgs F S F' S' :
  runOnFunction_args Params arg BBArgs F S = Some (F', S') →
  length (outcomes Params arg BBArgs F)
  = length (filter (λ P, isIndirectInOut P = true) Params)
  ∧ NumShadowsRemoved S'
    = NumShadowsRemoved S
      + length (filter (λ b, b = true) (outcomes Params arg BBArgs F))
  ∧ NumShadowsKept S'
    = NumShadowsKept S
      + length (filter (λ b, b = false) (outcomes Params arg BBArgs F)).
Proof.
  revert arg F S. induction Params as [|P Params IH]; intros arg F S.
  - intros [= <- <-]. simpl. lia.
  - simpl. rewrite filter_cons.
    destruct (isIndirectInOut P); simpl.
    + destruct (BBArgs !! arg) as [A|]; [|done].
      destruct (processInOutValue A F) as [F1 b]. intros Hrun.
      apply IH in Hrun as (Hlen & Hrem & Hkept).
      rewrite !filter_cons. simpl.
      rewrite Hlen, Hrem, Hkept. destruct b; simpl; lia.
    + intros Hrun. by apply IH.
Qed.

Lemma length_filter_bool (l : list bool) :
  length (filter (λ b, b = true) l) + length (filter (λ b, b = false) l)
  = length l.
Proof.
  induction l as [|b l IH]; [done|]. rewrite !filter_cons.
  destruct b; simpl; lia.
Qed.

(** ** Promotion of two allocations *)

Lemma mapOperands_compose g f X :
  mapOperands g (mapOperands f X) = mapOperands (g ∘ f) X.
Proof.
  destruct X as [id loc k]. unfold mapOperands. simpl. f_equal.
  destruct k; simpl; try done. by rewrite <- list_fmap_compose.
Qed.

Lemma mapOperands_ext g f X :
  (∀ V, g V = f V) → mapOperands g X = mapOperands f X.
Proof.
  intros Hext. destruct X as [id loc k]. unfold mapOperands. simpl. f_equal.
  destruct k; simpl; rewrite ?Hext; try done.
  f_equal. by apply list_fmap_ext.
Qed.

Lemma deshadowInstList_cons Alloc InOutArg X l :
  deshadowInstList Alloc InOutArg (X :: l)
  = if decide (erasedByPromotion Alloc InOutArg X)
    then deshadowInstList Alloc InOutArg l
    else mapOperands (redirect Alloc InOutArg) X
         :: deshadowInstList Alloc InOutArg l.
Proof.
  unfold deshadowInstList. rewrite filter_cons.
  destruct (decide (erasedByPromotion Alloc InOutArg X)).
  - by rewrite decide_False by tauto.
  - by rewrite decide_True.
Qed.

Lemma redirect_commute Alloc1 InOutArg1 Alloc2 InOutArg2 V :
  Alloc1 ≠ Alloc2 →
  redirect Alloc2 InOutArg2 (redirect Alloc1 InOutArg1 V)
  = redirect Alloc1 InOutArg1 (redirect Alloc2 InOutArg2 V).
Proof.
  intros Hdistinct. unfold redirect, argValue.
  repeat (case_decide; simpl in *); congruence.
Qed.

(** What the promotion of another allocation does to the instructions
    that the promotion of [Alloc1] erases. *)
Lemma erasedByPromotion_commute Alloc1 InOutArg1 Alloc2 InOutArg2 X :
  Alloc1 ≠ Alloc2 →
  erasedByPromotion Alloc1 InOutArg1 X
  ∨ erasedByPromotion Alloc2 InOutArg2
      (mapOperands (redirect Alloc1 InOutArg1) X) →
  erasedByPromotion Alloc2 InOutArg2 X
  ∨ erasedByPromotion Alloc1 InOutArg1
      (mapOperands (redirect Alloc2 InOutArg2) X).
Proof.
  intros Hne.
  assert (∀ A I V, getDef V ≠ InstructionDef A → redirect A I V = V) as Hro
    by (intros; by apply redirect_other).
  assert (∀ A I V, getDef V = InstructionDef A → redirect A I V = argValue I)
    as Hra by (intros; by apply redirect_alloc).
  assert (∀ A I V B, getDef (redirect A I V) = InstructionDef B →
                     redirect A I V = V) as Hrd.
  { intros A I V B. unfold redirect. by case_decide. }
  unfold erasedByPromotion, isLifecycleUser, isShadowCopy, isSelfCopy.
  rewrite !getAllOperands_mapOperands.
  destruct X as [id loc k]. unfold getAllOperands. simpl.
  intros [[Hid|[Hl|[Hc|Hc]]]|[Hid|[Hl|[Hc|Hc]]]].
  - right. by left.
  - right. right. left. apply list_elem_of_fmap.
    exists (mkValue (InstructionDef Alloc1) 0). split; [|done].
    symmetry. apply Hro. simpl. congruence.
  - destruct k as [|Op|Src Dest t i|Op|oc Ops]; try done. simpl.
    right. right. right. left.
    destruct Hc as [[Hs ->]|[-> Hd]].
    + left. rewrite (Hro Alloc2 _ Src) by congruence.
      split; [done|]. by apply Hro.
    + right. rewrite (Hro Alloc2 _ Dest) by congruence.
      split; [|done]. by apply Hro.
  - destruct k as [|Op|Src Dest t i|Op|oc Ops]; try done. simpl.
    right. right. right. right. destruct Hc as [Hs Hd].
    rewrite (Hro Alloc2 _ Src), (Hro Alloc2 _ Dest) by congruence. done.
  - left. by left.
  - left. right. left.
    apply list_elem_of_fmap in Hl as (V & HV & Hin).
    rewrite (Hrd Alloc1 InOutArg1 V Alloc2) in HV by (by rewrite <- HV).
    by subst.
  - destruct k as [|Op|Src Dest t i|Op|oc Ops]; try done. simpl in *.
    destruct Hc as [[Hs Hd]|[Hs Hd]].
    + pose proof (Hrd _ _ _ _ Hs) as HsS. rewrite HsS in Hs.
      destruct (decide (getDef Dest = InstructionDef Alloc1)) as [HdA|HdA].
      * right. right. right. left. right.
        rewrite (Hra Alloc1 _ Dest) in Hd by done.
        rewrite (Hra Alloc2 _ Src) by done.
        rewrite (Hro Alloc2 _ Dest) by congruence.
        split; [by rewrite Hd|done].
      * left. right. right. left. left.
        rewrite (Hro Alloc1 _ Dest) in Hd by done. done.
    + pose proof (Hrd _ _ _ _ Hd) as HdD. rewrite HdD in Hd.
      destruct (decide (getDef Src = InstructionDef Alloc1)) as [HsA|HsA].
      * right. right. right. left. left.
        rewrite (Hra Alloc1 _ Src) in Hs by done.
        rewrite (Hra Alloc2 _ Dest) by done.
        rewrite (Hro Alloc2 _ Src) by congruence.
        split; [done|by rewrite Hs].
      * left. right. right. left. right.
        rewrite (Hro Alloc1 _ Src) in Hs by done. done.
  - destruct k as [|Op|Src Dest t i|Op|oc Ops]; try done. simpl in *.
    destruct Hc as [Hs Hd].
    pose proof (Hrd _ _ _ _ Hs) as HsS. pose proof (Hrd _ _ _ _ Hd) as HdD.
    rewrite HsS in Hs. rewrite HdD in Hd.
    left. right. right. right. done.
Qed.

Lemma deshadowInstList_commute Alloc1 InOutArg1 Alloc2 InOutArg2 l :
  Alloc1 ≠ Alloc2 →
  deshadowInstList Alloc2 InOutArg2 (deshadowInstList Alloc1 InOutArg1 l)
  = deshadowInstList Alloc1 InOutArg1 (deshadowInstList Alloc2 InOutArg2 l).
Proof.
  intros Hne. induction l as [|X l IH]; [done|].
  pose proof (erasedByPromotion_commute Alloc1 InOutArg1 Alloc2 InOutArg2 X
                Hne) as H12.
  pose proof (erasedByPromotion_commute Alloc2 InOutArg2 Alloc1 InOutArg1 X
                (not_eq_sym Hne)) as H21.
  rewrite (deshadowInstList_cons Alloc1 InOutArg1 X l),
    (deshadowInstList_cons Alloc2 InOutArg2 X l).
  destruct (decide (erasedByPromotion Alloc1 InOutArg1 X)) as [H1|H1];
    destruct (decide (erasedByPromotion Alloc2 InOutArg2 X)) as [H2|H2];
    rewrite ?deshadowInstList_cons.
  - done.
  - rewrite decide_True by tauto. done.
  - rewrite decide_True by tauto. done.
  - destruct (decide (erasedByPromotion Alloc2 InOutArg2
                        (mapOperands (redirect Alloc1 InOutArg1) X)));
      destruct (decide (erasedByPromotion Alloc1 InOutArg1
                          (mapOperands (redirect Alloc2 InOutArg2) X)));
      try tauto.
    rewrite IH. f_equal. rewrite !mapOperands_compose.
    apply mapOperands_ext. intros V. simpl. by apply redirect_commute.
Qed.

(** ** What a run keeps *)

Lemma isInOutArgument_signature F F' InOutArg :
  signature F' = signature F →
  isInOutArgument F' InOutArg → isInOutArgument F InOutArg.
Proof.
  unfold signature. intros [= Hparams Hargs].
  intros (EntryBlock' & Bs' & arg & P & HB' & HP & Hio & HA).
  rewrite HB' in Hargs.
  destruct (getBlocks F) as [|EntryBlock Bs] eqn:HB; [done|].
  csimpl in Hargs. injection Hargs as Hentry _.
  exists EntryBlock, Bs, arg, P.
  split; [done|]. split; [by rewrite <- Hparams|].
  split; [done|]. by rewrite <- Hentry.
Qed.

Lemma runOnFunction_args_origin Params arg BBArgs F St F' St' X' :
  WellFormed F →
  (∀ j P A, Params !! j = Some P → isIndirectInOut P = true →
            BBArgs !! (arg + j) = Some A → isInOutArgument F A) →
  runOnFunction_args Params arg BBArgs F St = Some (F', St') →
  X' ∈ instructions F' →
  ∃ X g, X ∈ instructions F ∧ replacesShadows F g ∧ X' = mapOperands g X.
Proof.
  revert arg F St. induction Params as [|P Params IH];
    intros arg F St HF Hargs.
  - intros [= <- <-] HX'. exists X', id. split; [done|]. split.
    + intros V. by left.
    + symmetry. by apply mapOperands_id.
  - assert (∀ j Q B, Params !! j = Some Q → isIndirectInOut Q = true →
                     BBArgs !! (arg + 1 + j) = Some B →
                     isInOutArgument F B) as Hargs'.
    { intros j Q B HQ HQio HB. apply (Hargs (S j) Q B); [done..|].
      by replace (arg + S j) with (arg + 1 + j) by lia. }
    simpl. destruct (isIndirectInOut P) eqn:Hio; simpl; [|by apply IH].
    destruct (BBArgs !! arg) as [A|] eqn:HA; [|done].
    assert (isInOutArgument F A) as HAio.
    { apply (Hargs 0 P A); [done..|]. by rewrite Nat.add_0_r. }
    pose proof (WellFormed_processInOutValue A F HF) as HF1.
    destruct (processInOutValue_cases A F) as [Hr|(UI & ASI & _ & Hm & Hr)];
      rewrite Hr in *; cbn [fst] in HF1; intros Hrun HX'.
    { by eapply IH. }
    assert (∀ B, isInOutArgument (promoteShadow ASI A F) B →
                 isInOutArgument F B) as Hback.
    { intros B. apply isInOutArgument_signature.
      apply signature_promoteShadow. }
    assert (∀ j Q B, Params !! j = Some Q → isIndirectInOut Q = true →
                     BBArgs !! (arg + 1 + j) = Some B →
                     isInOutArgument (promoteShadow ASI A F) B) as Hargs1.
    { intros j Q B HQ HQio HB.
      apply (isInOutArgument_signature (promoteShadow ASI A F) F).
      - symmetry. apply signature_promoteShadow.
      - by eapply Hargs'. }
    destruct (IH _ _ _ HF1 Hargs1 Hrun HX') as (X1 & g & HX1 & Hg & ->).
    rewrite promoteShadow_instructions in HX1 by done.
    unfold deshadowInstList in HX1.
    apply list_elem_of_fmap in HX1 as (X & -> & HX).
    apply list_elem_of_filter in HX as [_ HX].
    exists X, (g ∘ redirect ASI A). split; [done|].
    split; [|apply mapOperands_compose].
    intros V. simpl.
    destruct (decide (getDef V = InstructionDef ASI)) as [HV|HV];
      [rewrite (redirect_alloc ASI A V HV)
      |rewrite (redirect_other ASI A V HV)].
    + right. exists A, ASI. split; [|split; [done|split; [done|]]].
      * destruct (Hg (argValue A)) as [->|(? & ? & _ & _ & Hd & _)]; done.
      * by eapply isCopyToOrFromStack_AllocStackInst.
    + destruct (Hg V) as [->|(B & ASI' & -> & HB & Hd & HAS)]; [by left|].
      right. exists B, ASI'. split; [done|]. split; [by apply Hback|].
      split; [done|].
      by apply (isAllocStack_promoteShadow_inv ASI A F ASI' HF).
Qed.

Lemma numAllocStack_deshadowInstList Alloc InOutArg l :
  NoDup (getId <$> l) →
  (∃ Y, Y ∈ l ∧ getId Y = Alloc ∧ isAllocStackInst Y) →
  length (filter isAllocStackInst (deshadowInstList Alloc InOutArg l)) + 1
  = length (filter isAllocStackInst l).
Proof.
  assert (∀ X, isAllocStackInst X →
               erasedByPromotion Alloc InOutArg X ↔ getId X = Alloc) as Hal.
  { intros X HX. unfold erasedByPromotion, isLifecycleUser, isShadowCopy,
      isSelfCopy, getAllOperands. unfold isAllocStackInst in HX.
    rewrite HX. rewrite elem_of_nil. tauto. }
  assert (∀ X, isAllocStackInst (mapOperands (redirect Alloc InOutArg) X)
               ↔ isAllocStackInst X) as Hmap.
  { intros [id loc k]. unfold isAllocStackInst, mapOperands. simpl.
    destruct k; simpl; split; done. }
  assert (∀ l', Alloc ∉ getId <$> l' →
            length (filter isAllocStackInst
                      (deshadowInstList Alloc InOutArg l'))
            = length (filter isAllocStackInst l')) as Hnone.
  { induction l' as [|X l' IH]; [done|]. csimpl. intros Hn.
    apply not_elem_of_cons in Hn as [Hne Hn].
    rewrite deshadowInstList_cons, (filter_cons _ X).
    destruct (decide (isAllocStackInst X)) as [HX|HX].
    - rewrite decide_False by (rewrite Hal by done; congruence).
      rewrite filter_cons_True by (by apply Hmap). simpl. by rewrite IH.
    - destruct (decide (erasedByPromotion Alloc InOutArg X)); [by apply IH|].
      rewrite filter_cons_False by (by rewrite Hmap). by apply IH. }
  induction l as [|X l IH]; csimpl.
  { intros _ (Y & HY & _). by apply elem_of_nil in HY. }
  rewrite NoDup_cons. intros [Hnot Hnd] (Y & HY & Hid & HK).
  rewrite deshadowInstList_cons, (filter_cons _ X).
  apply elem_of_cons in HY as [->|HY].
  - rewrite decide_True by (by left). rewrite decide_True by done. simpl.
    rewrite Hnone by (by rewrite <- Hid). lia.
  - assert (getId X ≠ Alloc) as Hne.
    { intros Heq. apply Hnot. rewrite Heq, <- Hid.
      apply list_elem_of_fmap. eauto. }
    assert (Hrec := IH Hnd (ex_intro _ Y (conj HY (conj Hid HK)))).
    destruct (decide (isAllocStackInst X)) as [HX|HX].
    + rewrite decide_False by (rewrite Hal by done; congruence).
      rewrite filter_cons_True by (by apply Hmap). simpl. lia.
    + destruct (decide (erasedByPromotion Alloc InOutArg X)); [done|].
      by rewrite filter_cons_False by (by rewrite Hmap).
Qed.

Lemma numAllocStack_promoteShadow Alloc InOutArg F :
  WellFormed F → isAllocStack F Alloc →
  numAllocStack (promoteShadow Alloc InOutArg F) + 1 = numAllocStack F.
Proof.
  intros HF (Y & HY & HK). unfold numAllocStack.
  rewrite promoteShadow_instructions by done.
  apply numAllocStack_deshadowInstList; [apply HF|].
  apply lookupInst_Some in HY as [HY Hid]. by exists Y.
Qed.

Lemma runOnFunction_args_numAllocStack Params arg BBArgs F St F' St' :
  WellFormed F →
  runOnFunction_args Params arg BBArgs F St = Some (F', St') →
  NumShadowsRemoved St' + numAllocStack F'
  = NumShadowsRemoved St + numAllocStack F.
Proof.
  revert arg F St. induction Params as [|P Params IH]; intros arg F St HF.
  - by intros [= <- <-].
  - simpl. destruct (negb (isIndirectInOut P)); [by apply IH|].
    destruct (BBArgs !! arg) as [A|]; [|done].
    pose proof (WellFormed_processInOutValue A F HF) as HF1.
    destruct (processInOutValue_cases A F) as [Hr|(UI & ASI & _ & Hm & Hr)];
      rewrite Hr in *; simpl in HF1; intros Hrun.
    + apply IH in Hrun; [|done]. simpl in Hrun. done.
    + apply IH in Hrun; [|done]. simpl in Hrun.
      pose proof (numAllocStack_promoteShadow ASI A F HF
                    (isCopyToOrFromStack_AllocStackInst _ _ _ Hm)).
      lia.
Qed.

Lemma processInOutValue_no_alloc_stack InOutArg F :
  numAllocStack F = 0 → processInOutValue InOutArg F = (F, false).
Proof.
  intros Hnone.
  destruct (processInOutValue_cases InOutArg F)
    as [Hr|(UI & ASI & _ & Hm & _)]; [done|].
  apply isCopyToOrFromStack_AllocStackInst in Hm as (Y & HY & HK).
  apply lookupInst_Some in HY as [HY _].
  unfold numAllocStack in Hnone. apply length_zero_iff_nil in Hnone.
  assert (Y ∈ filter isAllocStackInst (instructions F)) as Hin
    by by apply list_elem_of_filter.
  rewrite Hnone in Hin. by apply elem_of_nil in Hin.
Qed.

Lemma runOnFunction_args_no_alloc_stack Params arg BBArgs F St F' St' :
  numAllocStack F = 0 →
  runOnFunction_args Params arg BBArgs F St = Some (F', St') →
  F' = F ∧ NumShadowsRemoved St' = NumShadowsRemoved St.
Proof.
  intros Hnone. revert arg St.
  induction Params as [|P Params IH]; intros arg St.
  - by intros [= <- <-].
  - simpl. destruct (negb (isIndirectInOut P)); [by apply IH|].
    destruct (BBArgs !! arg) as [A|]; [|done].
    rewrite processInOutValue_no_alloc_stack by done.
    intros Hrun. by apply IH in Hrun.
Qed.

Lemma Forall2_fmap_same {A B} (R : A → B → Prop) (f : A → B) (l : list A) :
  (∀ x, x ∈ l → R x (f x)) → Forall2 R l (f <$> l).
Proof.
  induction l as [|x l IH]; intros H; csimpl; [constructor|].
  constructor; [apply H; left|]. apply IH. intros y Hy. apply H. by right.
Qed.

Lemma keepsOrder_refl Bs : keepsOrder Bs Bs.
Proof. unfold keepsOrder. induction Bs; constructor; done. Qed.

Lemma keepsOrder_trans Bs1 Bs2 Bs3 :
  keepsOrder Bs1 Bs2 → keepsOrder Bs2 Bs3 → keepsOrder Bs1 Bs3.
Proof.
  unfold keepsOrder. intros H12. revert Bs3.
  induction H12 as [|B1 B2 Bs1 Bs2 [Ha Hs] _ IH]; intros Bs3 H23.
  - by inversion H23.
  - inversion H23 as [|? B3 ? Bs3' [Ha' Hs'] H23']; subst.
    constructor; [|by apply IH]. split; [congruence|by etrans].
Qed.

Lemma keepsOrder_deshadowBlocks Alloc InOutArg Bs :
  keepsOrder Bs (deshadowBlocks Alloc InOutArg Bs).
Proof.
  unfold keepsOrder, deshadowBlocks. apply Forall2_fmap_same.
  intros B _. simpl. split; [done|]. unfold deshadowInstList.
  rewrite <- list_fmap_compose.
  trans (getId <$> filter (λ X, ¬ erasedByPromotion Alloc InOutArg X)
                     (getInstList B)).
  - induction (filter _ (getInstList B)) as [|X l IH]; csimpl; [done|].
    by constructor.
  - apply fmap_sublist, sublist_filter.
Qed.

Lemma runOnFunction_args_keepsOrder Params arg BBArgs F St F' St' :
  WellFormed F →
  runOnFunction_args Params arg BBArgs F St = Some (F', St') →
  keepsOrder (getBlocks F) (getBlocks F').
Proof.
  revert arg F St. induction Params as [|P Params IH]; intros arg F St HF.
  - intros [= <- <-]. apply keepsOrder_refl.
  - simpl. destruct (negb (isIndirectInOut P)); [by apply IH|].
    destruct (BBArgs !! arg) as [A|]; [|done].
    pose proof (WellFormed_processInOutValue A F HF) as HF1.
    destruct (processInOutValue_cases A F) as [Hr|(UI & ASI & _ & Hm & Hr)];
      rewrite Hr in *; cbn [fst snd] in HF1; intros Hrun.
    + by eapply IH.
    + eapply keepsOrder_trans; [|by eapply IH].
      rewrite promoteShadow_getBlocks by done.
      apply keepsOrder_deshadowBlocks.
Qed.

Lemma runOnFunction_args_statistics Params arg BBArgs F St F' St' T :
  runOnFunction_args Params arg BBArgs F St = Some (F', St') →
  ∃ T', runOnFunction_args Params arg BBArgs F T = Some (F', T').
Proof.
  revert arg F St T. induction Params as [|P Params IH]; intros arg F St T.
  - intros [= <- <-]. by eexists.
  - simpl. destruct (negb (isIndirectInOut P)); [by apply IH|].
    destruct (BBArgs !! arg) as [A|]; [|done].
    destruct (processInOutValue A F) as [F1 b]. by apply IH.
Qed.

(** ** The recognizer after a promotion *)











(** ** Example functions *)

Definition autoLoc : SILLocation := mkLoc true false.
Definition userLoc : SILLocation := mkLoc false false.
Definition fileLoc : SILLocation := mkLoc false true.

(** Result [n] of instruction [Id]. *)
Definition result (Id : InstId) (n : nat) : SILValue :=
  mkValue (InstructionDef Id) n.

(** The operand handles of an instruction list in the order the use lists
    have them when the instructions were created one after the other and
    never changed: the operand created last comes first. *)
Definition freshUseOrder (l : list SILInstruction) : list Operand :=
  reverse
    (X ← l; mkOperand (getId X) <$> seq 0 (length (getAllOperands X))).

(** A function of one block with the inout parameter bound to argument 0. *)
Definition inoutFunction (l : list SILInstruction) : SILFunction :=
  mkFunction [mkParam Indirect_Inout] [mkBlock [0] l] (freshUseOrder l).

(** Scenario A of the spec: a shadow with its autogenerated copy-in and
    copy-out and no other use. *)
Definition scenarioA : SILFunction :=
  inoutFunction
    [ mkInst 1 userLoc AllocStackInst;
      mkInst 2 autoLoc (CopyAddrInst (argValue 0) (result 1 1) false true);
      mkInst 3 autoLoc (CopyAddrInst (result 1 1) (argValue 0) true false);
      mkInst 4 autoLoc (DeallocStackInst (result 1 0)) ].

(** Scenario D of the spec: a shadow with its copy-in, its copy-out, its
    deallocation and one load from it:
<<
      %1 = alloc_stack
      copy_addr %0 to [initialization] %1#1     (autogenerated)
      %3 = load %1#1
      copy_addr [take] %1#1 to %0               (autogenerated)
      dealloc_stack %1#0
>> *)
Definition scenarioD : SILFunction :=
  inoutFunction
    [ mkInst 1 userLoc AllocStackInst;
      mkInst 2 autoLoc (CopyAddrInst (argValue 0) (result 1 1) false true);
      mkInst 3 userLoc (OtherInst 0 [result 1 1]);
      mkInst 4 autoLoc (CopyAddrInst (result 1 1) (argValue 0) true false);
      mkInst 5 autoLoc (DeallocStackInst (result 1 0)) ].

(** The shadow is also copied onto itself by instruction 3. *)
Definition selfCopyFunction : SILFunction :=
  inoutFunction
    [ mkInst 1 userLoc AllocStackInst;
      mkInst 2 autoLoc (CopyAddrInst (argValue 0) (result 1 1) false true);
      mkInst 3 userLoc (CopyAddrInst (result 1 1) (result 1 1) false false);
      mkInst 4 autoLoc (CopyAddrInst (result 1 1) (argValue 0) true false);
      mkInst 5 autoLoc (DeallocStackInst (result 1 0)) ].

(** The shadow has its autogenerated copy-in and copy-out and, as
    instruction 4, one more copy back to the argument that the user
    wrote. *)
Definition userCopyFunction : SILFunction :=
  inoutFunction
    [ mkInst 1 userLoc AllocStackInst;
      mkInst 2 autoLoc (CopyAddrInst (argValue 0) (result 1 1) false true);
      mkInst 3 autoLoc (CopyAddrInst (result 1 1) (argValue 0) false false);
      mkInst 4 userLoc (CopyAddrInst (result 1 1) (argValue 0) true false);
      mkInst 5 autoLoc (DeallocStackInst (result 1 0)) ].

(** Scenario C of the spec: the copy-in goes through a
    [mark_uninitialized] of the shadow. *)
Definition scenarioC : SILFunction :=
  inoutFunction
    [ mkInst 1 userLoc AllocStackInst;
      mkInst 2 autoLoc (MarkUninitializedInst (result 1 1));
      mkInst 3 autoLoc (CopyAddrInst (argValue 0) (result 2 0) false true);
      mkInst 4 autoLoc (CopyAddrInst (result 1 1) (argValue 0) true false);
      mkInst 5 autoLoc (DeallocStackInst (result 1 0)) ].

(** Scenario B of the spec: [var b = a], a copy written by the user. *)
Definition scenarioB : SILFunction :=
  inoutFunction
    [ mkInst 1 userLoc AllocStackInst;
      mkInst 2 userLoc (CopyAddrInst (argValue 0) (result 1 1) false true);
      mkInst 3 userLoc (DeallocStackInst (result 1 0)) ].

(** A declaration: parameters and no block. *)
Definition declaration : SILFunction :=
  mkFunction [mkParam Indirect_Inout] [] [].

Definition noStatistics : Statistics := mkStats 0 0.

(** An argument with two shadows, each with its autogenerated copy-in and
    copy-out. *)
Definition twoShadowsFunction : SILFunction :=
  inoutFunction
    [ mkInst 1 userLoc AllocStackInst;
      mkInst 2 autoLoc (CopyAddrInst (argValue 0) (result 1 1) false true);
      mkInst 3 userLoc AllocStackInst;
      mkInst 4 autoLoc (CopyAddrInst (argValue 0) (result 3 1) false true);
      mkInst 5 autoLoc (CopyAddrInst (result 1 1) (argValue 0) true false);
      mkInst 6 autoLoc (CopyAddrInst (result 3 1) (argValue 0) true false);
      mkInst 7 autoLoc (DeallocStackInst (result 3 0));
      mkInst 8 autoLoc (DeallocStackInst (result 1 0)) ].

(** Two inout parameters, bound to arguments 0 and 2, and a parameter
    passed directly between them.  Argument 0 has a shadow; argument 2 is
    copied by the user into a variable. *)
Definition twoParametersFunction : SILFunction :=
  let l :=
    [ mkInst 1 userLoc AllocStackInst;
      mkInst 2 autoLoc (CopyAddrInst (argValue 0) (result 1 1) false true);
      mkInst 3 autoLoc (CopyAddrInst (result 1 1) (argValue 0) true false);
      mkInst 4 autoLoc (DeallocStackInst (result 1 0));
      mkInst 5 userLoc AllocStackInst;
      mkInst 6 userLoc (CopyAddrInst (argValue 2) (result 5 1) false true);
      mkInst 7 userLoc (DeallocStackInst (result 5 0)) ] in
  mkFunction [mkParam Indirect_Inout; mkParam Direct_Owned;
              mkParam Indirect_Inout]
    [mkBlock [0; 1; 2] l] (freshUseOrder l).

(** A shadow whose copy-in has a file location and is not flagged
    autogenerated. *)
Definition fileLocFunction : SILFunction :=
  inoutFunction
    [ mkInst 1 userLoc AllocStackInst;
      mkInst 2 fileLoc (CopyAddrInst (argValue 0) (result 1 1) false true);
      mkInst 3 autoLoc (DeallocStackInst (result 1 0)) ].

(** The scenarios of the spec, run. *)
Example scenarioA_run :
  runOnFunction scenarioA noStatistics
  = Some (mkFunction [mkParam Indirect_Inout] [mkBlock [0] []] [],
          mkStats 1 0).
Proof. reflexivity. Qed.

Example scenarioB_run :
  runOnFunction scenarioB noStatistics = Some (scenarioB, mkStats 0 1).
Proof. reflexivity. Qed.

Example scenarioC_run :
  runOnFunction scenarioC noStatistics
  = Some (mkFunction [mkParam Indirect_Inout]
            [mkBlock [0]
               [ mkInst 2 autoLoc (MarkUninitializedInst (argValue 0));
                 mkInst 3 autoLoc
                   (CopyAddrInst (argValue 0) (result 2 0) false true) ]]
            [mkOperand 2 0; mkOperand 3 1; mkOperand 3 0],
          mkStats 1 0).
Proof. reflexivity. Qed.

Example scenarioD_run :
  runOnFunction scenarioD noStatistics
  = Some (mkFunction [mkParam Indirect_Inout]
            [mkBlock [0] [mkInst 3 userLoc (OtherInst 0 [argValue 0])]]
            [mkOperand 3 0],
          mkStats 1 0).
Proof. reflexivity. Qed.

(** An inout argument that is only read. *)
Definition readOnlyFunction : SILFunction :=
  inoutFunction [ mkInst 1 userLoc (OtherInst 0 [argValue 0]) ].

(** A function that takes its parameter directly and has no argument in its
    entry block. *)
Definition directFunction : SILFunction :=
  mkFunction [mkParam Direct_Owned] [mkBlock [] []] [].

(** A shadow of the argument that is copied into a second allocation. *)
Definition chainedShadowsFunction : SILFunction :=
  inoutFunction
    [ mkInst 1 userLoc AllocStackInst;
      mkInst 2 autoLoc (CopyAddrInst (argValue 0) (result 1 1) false true);
      mkInst 3 userLoc AllocStackInst;
      mkInst 4 autoLoc (CopyAddrInst (result 1 1) (result 3 1) false true);
      mkInst 5 autoLoc (DeallocStackInst (result 3 0));
      mkInst 6 autoLoc (DeallocStackInst (result 1 0)) ].

(** ** The properties of the pass *)

(** C1 (as amended): for a well-formed function, after
    [promoteShadow Alloc InOutArg] the blocks are those of the one-pass
    transformation: the allocation, every instruction that uses its result
    0, every [copy_addr] between it and the argument and every [copy_addr]
    from it to itself are erased; no operand of the function refers to the
    allocation; every other instruction is in place, the same but for its
    operands on the allocation, which now are the argument. *)
Theorem promoteShadow_postcondition Alloc InOutArg F :
  WellFormed F →
  getBlocks (promoteShadow Alloc InOutArg F)
  = deshadowBlocks Alloc InOutArg (getBlocks F)
  ∧ getInst (promoteShadow Alloc InOutArg F) Alloc = None
  ∧ (∀ X, X ∈ instructions F →
       isLifecycleUser Alloc X ∨ isShadowCopy Alloc InOutArg X
       ∨ isSelfCopy Alloc X →
       getInst (promoteShadow Alloc InOutArg F) (getId X) = None)
  ∧ (∀ X V, X ∈ instructions (promoteShadow Alloc InOutArg F) →
       V ∈ getAllOperands X → getDef V ≠ InstructionDef Alloc)
  ∧ (∀ X, X ∈ instructions F → getId X ≠ Alloc →
       ¬ isLifecycleUser Alloc X → ¬ isShadowCopy Alloc InOutArg X →
       ¬ isSelfCopy Alloc X →
       getInst (promoteShadow Alloc InOutArg F) (getId X)
       = Some (mapOperands (redirect Alloc InOutArg) X)).
Proof.
  intros HF. split; [by apply promoteShadow_getBlocks|].
  split; [apply getInst_erase_eq|]. split; [|split].
  - intros X HX He. rewrite getInst_promoteShadow by done.
    apply decide_True. by right.
  - intros X V. by apply promoteShadow_no_operand.
  - intros X HX Hid Hl Hc Hs. rewrite getInst_promoteShadow by done.
    apply decide_False. unfold erasedByPromotion. tauto.
Qed.

Lemma promoteShadow_postcondition_witness :
  getBlocks (promoteShadow 1 0 scenarioD)
  = deshadowBlocks 1 0 (getBlocks scenarioD)
  ∧ getInst (promoteShadow 1 0 scenarioD) 1 = None
  ∧ (∀ X, X ∈ instructions scenarioD →
       isLifecycleUser 1 X ∨ isShadowCopy 1 0 X ∨ isSelfCopy 1 X →
       getInst (promoteShadow 1 0 scenarioD) (getId X) = None)
  ∧ (∀ X V, X ∈ instructions (promoteShadow 1 0 scenarioD) →
       V ∈ getAllOperands X → getDef V ≠ InstructionDef 1)
  ∧ (∀ X, X ∈ instructions scenarioD → getId X ≠ 1 →
       ¬ isLifecycleUser 1 X → ¬ isShadowCopy 1 0 X → ¬ isSelfCopy 1 X →
       getInst (promoteShadow 1 0 scenarioD) (getId X)
       = Some (mapOperands (redirect 1 0) X)).
Proof.
  apply (promoteShadow_postcondition 1 0 scenarioD). compute_done.
Defined.

(** C1, the claim as stated fails: in [selfCopyFunction] instruction 3 is a
    use of the allocation that is neither a use of result 0 nor a copy to
    or from the argument, and promotion erases it instead of redirecting
    it. *)
Lemma promoteShadow_postcondition_counterexample :
  WellFormed selfCopyFunction
  ∧ ¬ (∀ X, X ∈ instructions selfCopyFunction → getId X ≠ 1 →
         ¬ isLifecycleUser 1 X → ¬ isShadowCopy 1 0 X →
         getInst (promoteShadow 1 0 selfCopyFunction) (getId X)
         = Some (mapOperands (redirect 1 0) X)).
Proof.
  split; [compute_done|]. intros H.
  specialize (H (mkInst 3 userLoc
                   (CopyAddrInst (result 1 1) (result 1 1) false false))).
  assert (getInst (promoteShadow 1 0 selfCopyFunction) 3 = None) as Hgone
    by (vm_compute; reflexivity).
  simpl in H. rewrite Hgone in H.
  enough (None = Some (mapOperands (redirect 1 0)
                         (mkInst 3 userLoc
                            (CopyAddrInst (result 1 1) (result 1 1)
                               false false)))) by done.
  apply H.
  - compute_done.
  - done.
  - compute_done.
  - compute_done.
Qed.




(** C3: for a use [UI] of an inout argument, [isCopyToOrFromStack]
    returns the [alloc_stack] [ASI] exactly when the user of [UI] is a
    [copy_addr] that passes the provenance gate and whose other operand,
    with one layer of [mark_uninitialized] taken off when there is one, is
    the address result of [ASI]; otherwise it returns nothing.  It is a
    function of the use and the function alone and returns no changed
    function: it is a query.  The address typing of SIL is assumed: the
    recognizer casts the operand to its defining [alloc_stack] without
    looking at the result number. *)
Theorem isCopyToOrFromStack_spec F InOutArg UI ASI :
  AddressTyped F →
  UI ∈ getUses (ArgumentDef InOutArg) F →
  isCopyToOrFromStack F UI = Some ASI
  ↔ ∃ X Src Dest t i m Other,
      getInst F (getUser UI) = Some X
      ∧ getKind X = CopyAddrInst Src Dest t i
      ∧ passesGate (getLoc X)
      ∧ m ≠ getOperandNumber UI ∧ [Src; Dest] !! m = Some Other
      ∧ unwrapped F Other (addressResult ASI)
      ∧ isAllocStack F ASI.
Proof.
  intros HT HUI. unfold getUses in HUI.
  apply list_elem_of_filter in HUI as [(V & HV & HD) _].
  unfold get in HV.
  destruct (getInst F (getUser UI)) as [X|] eqn:HX; simpl in HV; [|done].
  unfold isCopyToOrFromStack, dyn_cast_CopyAddrInst. rewrite HX.
  unfold getAllOperands in HV.
  destruct (getKind X) as [|Op|Src Dest t i|Op|oc Ops] eqn:HK.
  1,2,4,5: split; [done|]; intros (? & ? & ? & ? & ? & ? & ? & [= <-] & ? & _);
           congruence.
  assert (∀ W, dyn_cast_AllocStackInst F W = Some ASI
               ↔ getDef W = InstructionDef ASI ∧ isAllocStack F ASI) as Hcast.
  { intros W. unfold dyn_cast_AllocStackInst, isAllocStack. split.
    - destruct (getDef W) as [|Id]; [done|].
      destruct (getInst F Id) as [Y|] eqn:HY; [|done].
      destruct (getKind Y) eqn:HKY; try done. intros [= <-]. eauto.
    - intros [-> (Y & -> & ->)]. done. }
  set (Other := if decide (getOperandNumber UI = 0) then Dest else Src).
  assert (∀ m O, m ≠ getOperandNumber UI →
                 [Src; Dest] !! m = Some O → O = Other) as Hother.
  { intros m O Hm HO. unfold Other.
    destruct (getOperandNumber UI) as [|[|n]]; [| |done];
      destruct m as [|[|m]]; try done; by inversion HO. }
  assert (∃ m, m ≠ getOperandNumber UI ∧ [Src; Dest] !! m = Some Other)
    as (m & Hm & HmO).
  { unfold Other. destruct (getOperandNumber UI) as [|[|n]]; [| |done].
    - by exists 1.
    - by exists 0. }
  pose proof (lookupInst_Some _ _ _ HX) as [HXin _].
  split.
  - destruct (negb (isAutoGenerated (getLoc X))
              && negb (isSILFileLocation (getLoc X))) eqn:Hgate; [done|].
    intros HA.
    exists X, Src, Dest, t, i, m, Other.
    split; [done|]. split; [done|]. split.
    { unfold passesGate.
      destruct (isAutoGenerated (getLoc X)), (isSILFileLocation (getLoc X));
        simpl in Hgate; auto; done. }
    split; [done|]. split; [done|].
    apply Hcast in HA as [HDW HAS]. split; [|done].
    apply dyn_cast_MarkUninitializedInst_unwrapped.
    set (W := match dyn_cast_MarkUninitializedInst F Other with
              | Some Op => Op | None => Other end) in *.
    assert (getResultNumber W = 1) as HR.
    { assert (dyn_cast_AllocStackInst F W = Some ASI) as HW
        by (by apply Hcast).
      unfold W in *. unfold dyn_cast_MarkUninitializedInst in *.
      destruct (getDef Other) as [|Id] eqn:HDO.
      { apply (HT X Other ASI); [done| |done].
        unfold addressOperands. rewrite HK.
        by eapply list_elem_of_lookup_2. }
      destruct (getInst F Id) as [Y|] eqn:HY.
      2:{ apply (HT X Other ASI); [done| |done].
          unfold addressOperands. rewrite HK.
          by eapply list_elem_of_lookup_2. }
      pose proof (lookupInst_Some _ _ _ HY) as [HYin _].
      destruct (getKind Y) eqn:HKY;
        try (apply (HT X Other ASI); [done| |done];
             unfold addressOperands; rewrite HK;
             by eapply list_elem_of_lookup_2).
      apply (HT Y Op ASI); [done| |done].
      unfold addressOperands. rewrite HKY. left. }
    unfold addressResult. destruct W; simpl in *; by subst.
  - intros (X' & Src' & Dest' & t' & i' & m' & O' & [= <-] & HK' & Hg & Hm'
            & HO' & HU & HAS).
    rewrite HK in HK'. inversion HK'; subst Src' Dest' t' i'.
    rewrite (Hother _ _ Hm' HO') in HU.
    destruct Hg as [Hg|Hg]; rewrite Hg; simpl; rewrite ?andb_false_r;
      apply dyn_cast_MarkUninitializedInst_unwrapped in HU;
      fold Other; rewrite <- HU; by apply Hcast.
Qed.

Lemma isCopyToOrFromStack_spec_witness :
  isCopyToOrFromStack scenarioC (mkOperand 3 0) = Some 1
  ↔ ∃ X Src Dest t i m Other,
      getInst scenarioC 3 = Some X
      ∧ getKind X = CopyAddrInst Src Dest t i
      ∧ passesGate (getLoc X)
      ∧ m ≠ 0 ∧ [Src; Dest] !! m = Some Other
      ∧ unwrapped scenarioC Other (addressResult 1)
      ∧ isAllocStack scenarioC 1.
Proof.
  apply (isCopyToOrFromStack_spec scenarioC 0 (mkOperand 3 0) 1);
    compute_done.
Defined.

(** On a function with a block the module driver does what
    [runOnFunction] does, and goes on with the rest of the module; a
    function with no block is skipped by the module driver, while
    [runOnFunction] makes no such test and has no defined result on it. *)
Theorem entry_points_agree Fn M S :
  (getBlocks Fn ≠ [] →
   performInOutDeshadowing (Fn :: M) S
   = '(Fn', S1) ← runOnFunction Fn S;
     '(M', S2) ← performInOutDeshadowing M S1;
     Some (Fn' :: M', S2))
  ∧ (getBlocks Fn = [] →
     performInOutDeshadowing (Fn :: M) S
     = ('(M', S') ← performInOutDeshadowing M S; Some (Fn :: M', S'))
     ∧ runOnFunction Fn S = None).
Proof.
  unfold runOnFunction. simpl. split.
  - intros Hne. destruct (getBlocks Fn) as [|EntryBlock Bs]; [done|].
    by rewrite performInOutDeshadowing_args_runOnFunction_args.
  - intros ->. done.
Qed.

Lemma entry_points_agree_witness :
  performInOutDeshadowing [scenarioD; declaration] noStatistics
  = '(Fn', S1) ← runOnFunction scenarioD noStatistics;
    '(M', S2) ← performInOutDeshadowing [declaration] S1;
    Some (Fn' :: M', S2).
Proof.
  apply (entry_points_agree scenarioD [declaration] noStatistics). done.
Defined.

(** C4: the claim holds of the module driver and fails in
    [runOnFunction].  On the declaration [declaration] the module driver
    skips the function, as the claim says both entry points do;
    [runOnFunction] takes [F.front()] without the test [Fn.empty()] that
    its sibling makes first, and on a function with no block that has no
    defined result. *)
Theorem runOnFunction_declaration :
  performInOutDeshadowing [declaration] noStatistics
  = Some ([declaration], noStatistics)
  ∧ runOnFunction declaration noStatistics = None.
Proof. split; reflexivity. Qed.

(** C5: when the recognizer matches no use of the argument,
    [processInOutValue] returns false and the function is the one it was
    given. *)
Theorem processInOutValue_kept InOutArg F :
  (∀ UI, UI ∈ getUses (ArgumentDef InOutArg) F →
         isCopyToOrFromStack F UI = None) →
  processInOutValue InOutArg F = (F, false).
Proof. apply processInOutValue_scan_no_match. Qed.

Lemma processInOutValue_kept_witness :
  processInOutValue 0 scenarioB = (scenarioB, false).
Proof.
  apply (processInOutValue_kept 0 scenarioB).
  apply Forall_forall. compute_done.
Defined.

(** C6: [processInOutValue] goes through the use list of the argument in
    order; at the first use the recognizer matches it promotes the
    allocation returned for it and returns true, whatever uses come after
    it. *)
Theorem processInOutValue_first_match InOutArg F pre UI post ASI :
  getUses (ArgumentDef InOutArg) F = pre ++ UI :: post →
  (∀ U, U ∈ pre → isCopyToOrFromStack F U = None) →
  isCopyToOrFromStack F UI = Some ASI →
  processInOutValue InOutArg F = (promoteShadow ASI InOutArg F, true).
Proof.
  intros Huses Hpre HUI. unfold processInOutValue. rewrite Huses.
  by apply processInOutValue_scan_first_match.
Qed.

Lemma processInOutValue_first_match_witness :
  processInOutValue 0 userCopyFunction
  = (promoteShadow 1 0 userCopyFunction, true).
Proof.
  apply (processInOutValue_first_match 0 userCopyFunction
           [mkOperand 4 1] (mkOperand 3 1) [mkOperand 2 0] 1).
  - reflexivity.
  - apply Forall_forall. compute_done.
  - reflexivity.
Defined.

(** C7: when the module driver processes a function with [k] inout
    parameters, it calls [processInOutValue] [k] times; with [m] of the
    calls promoting, [NumShadowsRemoved] grows by [m] and [NumShadowsKept]
    by [k - m]. *)
Theorem performInOutDeshadowing_counters Fn EntryBlock Bs S M' S' :
  getBlocks Fn = EntryBlock :: Bs →
  performInOutDeshadowing [Fn] S = Some (M', S') →
  let results :=
    outcomes (getInterfaceParameters Fn) 0 (getBBArgs EntryBlock) Fn in
  let k :=
    length (filter (λ P, isIndirectInOut P = true)
              (getInterfaceParameters Fn)) in
  let m := length (filter (λ b, b = true) results) in
  length results = k
  ∧ NumShadowsRemoved S' = NumShadowsRemoved S + m
  ∧ NumShadowsKept S' = NumShadowsKept S + (k - m).
Proof.
  intros HB. simpl. rewrite HB.
  rewrite performInOutDeshadowing_args_runOnFunction_args.
  destruct (runOnFunction_args _ _ _ _ _) as [[Fn' S1]|] eqn:Hrun; [|done].
  simpl. intros [= <- <-].
  apply runOnFunction_args_counters in Hrun as (Hlen & Hrem & Hkept).
  split; [done|]. split; [done|]. rewrite Hkept, <- Hlen.
  pose proof (length_filter_bool
    (outcomes (getInterfaceParameters Fn) 0 (getBBArgs EntryBlock) Fn)).
  lia.
Qed.

Lemma performInOutDeshadowing_counters_witness :
  length (outcomes (getInterfaceParameters twoParametersFunction) 0
            [0; 1; 2] twoParametersFunction) = 2
  ∧ NumShadowsRemoved (mkStats 1 1) = NumShadowsRemoved noStatistics + 1
  ∧ NumShadowsKept (mkStats 1 1) = NumShadowsKept noStatistics + (2 - 1).
Proof.
  apply (performInOutDeshadowing_counters twoParametersFunction
           (mkBlock [0; 1; 2] (instructions twoParametersFunction)) []
           noStatistics [promoteShadow 1 0 twoParametersFunction]
           (mkStats 1 1)); reflexivity.
Defined.




(** The conditions hold in the four scenarios of the spec. *)
Example scenarios_one_shadow_each :
  Forall (λ F, WellFormed F ∧ OneShadowEach F ∧ NoCopyBetweenStacks F)
    [scenarioA; scenarioB; scenarioC; scenarioD].
Proof. compute_done. Qed.

(** Each condition alone does not do: [twoShadowsFunction] has no copy
    between two allocations and [chainedShadowsFunction] has one shadow
    for its argument, and on both the second run promotes an allocation
    that the first run left. *)
Example second_run_promotes_again :
  (WellFormed twoShadowsFunction ∧ NoCopyBetweenStacks twoShadowsFunction
   ∧ ¬ OneShadowEach twoShadowsFunction
   ∧ ∃ F1 S1 F2 S2,
       runOnFunction twoShadowsFunction noStatistics = Some (F1, S1)
       ∧ runOnFunction F1 S1 = Some (F2, S2)
       ∧ getBlocks F2 ≠ getBlocks F1)
  ∧ (WellFormed chainedShadowsFunction
     ∧ OneShadowEach chainedShadowsFunction
     ∧ ¬ NoCopyBetweenStacks chainedShadowsFunction
     ∧ ∃ F1 S1 F2 S2,
         runOnFunction chainedShadowsFunction noStatistics = Some (F1, S1)
         ∧ runOnFunction F1 S1 = Some (F2, S2)
         ∧ getBlocks F2 ≠ getBlocks F1).
Proof.
  split.
  - repeat (split; [compute_done|]).
    exists (promoteShadow 3 0 twoShadowsFunction), (mkStats 1 0),
      (promoteShadow 1 0 (promoteShadow 3 0 twoShadowsFunction)),
      (mkStats 2 0).
    repeat split; [compute_done].
  - repeat (split; [compute_done|]).
    exists (promoteShadow 1 0 chainedShadowsFunction), (mkStats 1 0),
      (promoteShadow 3 0 (promoteShadow 1 0 chainedShadowsFunction)),
      (mkStats 2 0).
    repeat split; [compute_done].
Qed.

(** C9: the loop of [promoteShadow] is a total function; it makes at most
    as many iterations as the allocation has uses and leaves the allocation
    without a use; each iteration takes the first remaining use and either
    erases its user or redirects it to the argument, and leaves the use
    list strictly shorter.  The drivers are total as well: on a function
    whose entry block has an argument for every parameter [runOnFunction]
    returns a result. *)
Theorem promoteShadow_terminates Alloc InOutArg F :
  (promoteShadow_loop Alloc InOutArg F).2
  ≤ length (getUses (InstructionDef Alloc) F)
  ∧ getUses (InstructionDef Alloc) (promoteShadow_loop Alloc InOutArg F).1
    = []
  ∧ (∀ Use rest,
       getUses (InstructionDef Alloc) F = Use :: rest →
       (promoteShadow_iter InOutArg Use F = eraseFromParent (getUser Use) F
        ∨ promoteShadow_iter InOutArg Use F = set Use (argValue InOutArg) F)
       ∧ length (getUses (InstructionDef Alloc)
                   (promoteShadow_iter InOutArg Use F))
         < length (getUses (InstructionDef Alloc) F))
  ∧ (∀ S EntryBlock Bs,
       getBlocks F = EntryBlock :: Bs →
       length (getInterfaceParameters F) ≤ length (getBBArgs EntryBlock) →
       is_Some (runOnFunction F S)).
Proof.
  split; [apply promoteShadow_loop_iterations|].
  split; [by apply (promoteShadow_loop_invariant (λ _, True))|].
  split.
  - intros Use rest Huses. split; [|by eapply promoteShadow_iter_shrinks].
    apply promoteShadow_iter_cases.
    assert (Use ∈ getUses (InstructionDef Alloc) F) as HUse
      by (rewrite Huses; left).
    unfold getUses in HUse.
    apply list_elem_of_filter in HUse as [(V & HV & _) _]. eauto.
  - intros S EntryBlock Bs HB Hlen. unfold runOnFunction. rewrite HB.
    apply runOnFunction_args_is_Some. lia.
Qed.

Lemma promoteShadow_terminates_witness :
  (promoteShadow_loop 1 0 scenarioD).2 ≤ 4
  ∧ getUses (InstructionDef 1) (promoteShadow_loop 1 0 scenarioD).1 = []
  ∧ length (getUses (InstructionDef 1)
              (promoteShadow_iter 0 (mkOperand 5 0) scenarioD)) < 4
  ∧ is_Some (runOnFunction scenarioD noStatistics).
Proof.
  destruct (promoteShadow_terminates 1 0 scenarioD) as (H1 & H2 & H3 & H4).
  split; [exact H1|]. split; [exact H2|]. split.
  - exact (proj2 (H3 (mkOperand 5 0)
                     [mkOperand 4 0; mkOperand 3 0; mkOperand 2 1] eq_refl)).
  - apply (H4 noStatistics _ [] eq_refl). simpl. lia.
Defined.

(** C10: [promoteShadow] erases every [copy_addr] between the allocation
    and the argument, whatever its location says: the copy [mkInst Id Loc
    _] is erased for every [Loc], autogenerated or not. *)
Theorem promoteShadow_erases_copies_of_any_provenance
    Alloc InOutArg F Id Loc Src Dest t i :
  WellFormed F →
  mkInst Id Loc (CopyAddrInst Src Dest t i) ∈ instructions F →
  (getDef Src = InstructionDef Alloc ∧ Dest = argValue InOutArg)
  ∨ (Src = argValue InOutArg ∧ getDef Dest = InstructionDef Alloc) →
  getInst (promoteShadow Alloc InOutArg F) Id = None.
Proof.
  intros HF HX Hcopy.
  pose proof (getInst_promoteShadow Alloc InOutArg F _ HF HX) as Hget.
  simpl in Hget. rewrite Hget.
  apply decide_True. right; right; left. exact Hcopy.
Qed.

Lemma promoteShadow_erases_copies_of_any_provenance_witness :
  isAutoGenerated userLoc = false
  ∧ isSILFileLocation userLoc = false
  ∧ getInst userCopyFunction 4
    = Some (mkInst 4 userLoc
              (CopyAddrInst (result 1 1) (argValue 0) true false))
  ∧ getInst (promoteShadow 1 0 userCopyFunction) 4 = None.
Proof.
  split; [reflexivity|]. split; [reflexivity|]. split; [reflexivity|].
  apply (promoteShadow_erases_copies_of_any_provenance
           1 0 userCopyFunction 4 userLoc (result 1 1) (argValue 0)
           true false).
  - compute_done.
  - compute_done.
  - left. split; reflexivity.
Defined.

(** ** Further properties *)

(** Promotion keeps the function well formed, and leaves its parameters and
    the arguments of its blocks as they are. *)
Theorem promoteShadow_keeps_WellFormed Alloc InOutArg F :
  WellFormed F →
  WellFormed (promoteShadow Alloc InOutArg F)
  ∧ getInterfaceParameters (promoteShadow Alloc InOutArg F)
    = getInterfaceParameters F
  ∧ getBBArgs <$> getBlocks (promoteShadow Alloc InOutArg F)
    = getBBArgs <$> getBlocks F.
Proof.
  intros HF. split; [by apply WellFormed_promoteShadow|].
  pose proof (signature_promoteShadow Alloc InOutArg F) as Hs.
  unfold signature in Hs. by injection Hs.
Qed.

Lemma promoteShadow_keeps_WellFormed_witness :
  WellFormed (promoteShadow 1 0 scenarioD)
  ∧ getInterfaceParameters (promoteShadow 1 0 scenarioD)
    = getInterfaceParameters scenarioD
  ∧ getBBArgs <$> getBlocks (promoteShadow 1 0 scenarioD)
    = getBBArgs <$> getBlocks scenarioD.
Proof.
  apply (promoteShadow_keeps_WellFormed 1 0 scenarioD). compute_done.
Defined.

(** Promotion leaves alone every instruction that has no operand on the
    allocation.  A copy into a [mark_uninitialized] of the shadow is such
    an instruction: the recognizer looks through the [mark_uninitialized],
    the promoter does not, and the copy stays. *)
Theorem promoteShadow_frame Alloc InOutArg F X :
  WellFormed F → X ∈ instructions F → getId X ≠ Alloc →
  (∀ V, V ∈ getAllOperands X → getDef V ≠ InstructionDef Alloc) →
  getInst (promoteShadow Alloc InOutArg F) (getId X) = Some X.
Proof.
  intros HF HX Hid Hops. rewrite getInst_promoteShadow by done.
  rewrite decide_False.
  - f_equal. apply mapOperands_id. intros V HV.
    apply redirect_other. by apply Hops.
  - intros [?|[Hl|[Hc|Hc]]]; [done|..].
    + by eapply Hops.
    + unfold isShadowCopy in Hc. unfold getAllOperands in Hops.
      destruct (getKind X) as [|Op|Src Dest t i|Op|oc Ops]; try done.
      destruct Hc as [[Hs _]|[_ Hd]].
      * by eapply (Hops Src); [left|].
      * by eapply (Hops Dest); [right; left|].
    + unfold isSelfCopy in Hc. unfold getAllOperands in Hops.
      destruct (getKind X) as [|Op|Src Dest t i|Op|oc Ops]; try done.
      destruct Hc as [Hs _]. by eapply (Hops Src); [left|].
Qed.

Lemma promoteShadow_frame_witness :
  isCopyToOrFromStack scenarioC (mkOperand 3 0) = Some 1
  ∧ getInst (promoteShadow 1 0 scenarioC) 3
    = Some (mkInst 3 autoLoc
              (CopyAddrInst (argValue 0) (result 2 0) false true))
  ∧ getInst (promoteShadow 1 0 scenarioC) 2
    = Some (mkInst 2 autoLoc (MarkUninitializedInst (argValue 0))).
Proof.
  split; [reflexivity|]. split; [|reflexivity].
  apply (promoteShadow_frame 1 0 scenarioC
           (mkInst 3 autoLoc
              (CopyAddrInst (argValue 0) (result 2 0) false true))).
  - compute_done.
  - compute_done.
  - done.
  - apply Forall_forall. compute_done.
Defined.

(** The provenance gate lets through a [copy_addr] that is not flagged
    autogenerated when its location is a file location: such a copy of
    the argument into an [alloc_stack] makes the recognizer return the
    [alloc_stack]. *)
Theorem isCopyToOrFromStack_file_location F UI X InOutArg ASI t i :
  getInst F (getUser UI) = Some X →
  getKind X = CopyAddrInst (argValue InOutArg) (addressResult ASI) t i →
  getOperandNumber UI = 0 →
  isAllocStack F ASI →
  isAutoGenerated (getLoc X) = false →
  isSILFileLocation (getLoc X) = true →
  isCopyToOrFromStack F UI = Some ASI.
Proof.
  intros HX HK Hn (Y & HY & HKY) Ha Hf.
  unfold isCopyToOrFromStack, dyn_cast_CopyAddrInst.
  rewrite HX, HK, Ha, Hf, Hn. simpl.
  unfold dyn_cast_MarkUninitializedInst, dyn_cast_AllocStackInst. simpl.
  rewrite HY, HKY. simpl. by rewrite HY, HKY.
Qed.

Lemma isCopyToOrFromStack_file_location_witness :
  isCopyToOrFromStack fileLocFunction (mkOperand 2 0) = Some 1.
Proof.
  apply (isCopyToOrFromStack_file_location fileLocFunction (mkOperand 2 0)
           (mkInst 2 fileLoc
              (CopyAddrInst (argValue 0) (result 1 1) false true))
           0 1 false true); try reflexivity.
  by eexists.
Defined.

(** The blocks that [promoteShadow] leaves do not depend on the order in
    which the loop meets the uses of the allocation: two well-formed
    functions with the same blocks, whatever the order of their use lists,
    are left with the same blocks. *)
Theorem promoteShadow_use_order_irrelevant Alloc InOutArg F G :
  WellFormed F → WellFormed G → getBlocks F = getBlocks G →
  getBlocks (promoteShadow Alloc InOutArg F)
  = getBlocks (promoteShadow Alloc InOutArg G).
Proof.
  intros HF HG Hsame. rewrite !promoteShadow_getBlocks by done.
  by rewrite Hsame.
Qed.

Lemma promoteShadow_use_order_irrelevant_witness :
  useOrder (withUseOrder (reverse (useOrder scenarioD)) scenarioD)
  ≠ useOrder scenarioD
  ∧ getBlocks (promoteShadow 1 0 scenarioD)
    = getBlocks (promoteShadow 1 0
                   (withUseOrder (reverse (useOrder scenarioD)) scenarioD)).
Proof.
  split; [compute_done|].
  apply (promoteShadow_use_order_irrelevant 1 0 scenarioD
           (withUseOrder (reverse (useOrder scenarioD)) scenarioD)).
  - compute_done.
  - compute_done.
  - reflexivity.
Defined.

(** Promotions of two different allocations commute: whichever is promoted
    first, the function is left with the same blocks. *)
Theorem promoteShadow_commute Alloc1 InOutArg1 Alloc2 InOutArg2 F :
  WellFormed F → Alloc1 ≠ Alloc2 →
  getBlocks (promoteShadow Alloc2 InOutArg2
               (promoteShadow Alloc1 InOutArg1 F))
  = getBlocks (promoteShadow Alloc1 InOutArg1
                 (promoteShadow Alloc2 InOutArg2 F)).
Proof.
  intros HF Hne.
  rewrite (promoteShadow_getBlocks Alloc2 InOutArg2
             (promoteShadow Alloc1 InOutArg1 F))
    by (by apply WellFormed_promoteShadow).
  rewrite (promoteShadow_getBlocks Alloc1 InOutArg1
             (promoteShadow Alloc2 InOutArg2 F))
    by (by apply WellFormed_promoteShadow).
  rewrite !promoteShadow_getBlocks by done.
  unfold deshadowBlocks. rewrite <- !list_fmap_compose.
  apply list_fmap_ext. intros i B _. simpl. f_equal.
  by apply deshadowInstList_commute.
Qed.

Lemma promoteShadow_commute_witness :
  getBlocks (promoteShadow 3 0 (promoteShadow 1 0 twoShadowsFunction))
  = getBlocks (promoteShadow 1 0 (promoteShadow 3 0 twoShadowsFunction)).
Proof.
  apply (promoteShadow_commute 1 0 3 0 twoShadowsFunction); [compute_done|].
  done.
Defined.

(** The result of [processInOutValue] says whether it changed the function:
    it is true exactly when the recognizer matches a use of the argument,
    and exactly when the blocks returned differ from the blocks given. *)
Theorem processInOutValue_result InOutArg F :
  WellFormed F →
  ((processInOutValue InOutArg F).2 = true
   ↔ ∃ UI ASI, UI ∈ getUses (ArgumentDef InOutArg) F
               ∧ isCopyToOrFromStack F UI = Some ASI)
  ∧ ((processInOutValue InOutArg F).2 = true
     ↔ getBlocks (processInOutValue InOutArg F).1 ≠ getBlocks F).
Proof.
  intros HF.
  destruct (processInOutValue_cases InOutArg F)
    as [Hr|(UI & ASI & HUI & Hm & Hr)].
  - rewrite Hr. simpl. split; (split; [done|]).
    + intros (UI & ASI & HUI & Hm).
      destruct (processInOutValue_promotes _ _ _ _ HUI Hm) as (? & _ & Hr').
      rewrite Hr in Hr'. by injection Hr'.
    + intros Hne. by destruct Hne.
  - rewrite Hr. cbn [fst snd]. split; (split; [intros _|done]).
    + eauto.
    + intros Hsame.
      apply (instructions_getBlocks (promoteShadow ASI InOutArg F) F)
        in Hsame.
      pose proof (promoteShadow_length_lt ASI InOutArg F HF
                    (isCopyToOrFromStack_AllocStackInst _ _ _ Hm)) as Hlt.
      rewrite Hsame in Hlt. lia.
Qed.

Lemma processInOutValue_result_witness :
  ((processInOutValue 0 scenarioD).2 = true
   ↔ ∃ UI ASI, UI ∈ getUses (ArgumentDef 0) scenarioD
               ∧ isCopyToOrFromStack scenarioD UI = Some ASI)
  ∧ ((processInOutValue 0 scenarioD).2 = true
     ↔ getBlocks (processInOutValue 0 scenarioD).1 ≠ getBlocks scenarioD).
Proof. apply (processInOutValue_result 0 scenarioD). compute_done. Defined.

(** The pass creates no instruction: every instruction of the function it
    returns is an instruction of the function it was given, in which at
    most some operands that were results of an [alloc_stack] have been
    replaced by an argument that the entry block binds to an inout
    parameter of the function; its identity, location, kind and flags are
    the same. *)
Theorem runOnFunction_origin F St F' St' X' :
  WellFormed F →
  runOnFunction F St = Some (F', St') →
  X' ∈ instructions F' →
  ∃ X g, X ∈ instructions F ∧ replacesShadows F g ∧ X' = mapOperands g X.
Proof.
  intros HF Hrun. unfold runOnFunction in Hrun.
  destruct (getBlocks F) as [|EntryBlock Bs] eqn:HB; [done|].
  intros HX'. eapply runOnFunction_args_origin; [done| |done|done].
  intros j P A HP Hio HA. by exists EntryBlock, Bs, j, P.
Qed.

Lemma runOnFunction_origin_witness :
  ∃ X g, X ∈ instructions scenarioD ∧ replacesShadows scenarioD g
         ∧ mkInst 3 userLoc (OtherInst 0 [argValue 0]) = mapOperands g X.
Proof.
  apply (runOnFunction_origin scenarioD noStatistics
           (promoteShadow 1 0 scenarioD) (mkStats 1 0)).
  - compute_done.
  - reflexivity.
  - compute_done.
Defined.

(** The pass moves no instruction: every block of the result has the
    arguments it had, and its instructions are, in the order they had, some
    of the instructions the block had. *)
Theorem runOnFunction_keeps_order F St F' St' :
  WellFormed F →
  runOnFunction F St = Some (F', St') →
  keepsOrder (getBlocks F) (getBlocks F').
Proof.
  intros HF Hrun. unfold runOnFunction in Hrun.
  destruct (getBlocks F) as [|EntryBlock Bs] eqn:HB; [done|].
  rewrite <- HB. by eapply runOnFunction_args_keepsOrder.
Qed.

Lemma runOnFunction_keeps_order_witness :
  keepsOrder (getBlocks scenarioD) (getBlocks (promoteShadow 1 0 scenarioD)).
Proof.
  apply (runOnFunction_keeps_order scenarioD noStatistics
           (promoteShadow 1 0 scenarioD) (mkStats 1 0)).
  - compute_done.
  - reflexivity.
Defined.

(** [NumShadowsRemoved] counts allocations: over a run it grows by exactly
    the number of [alloc_stack] instructions the run erases. *)
Theorem runOnFunction_removed_allocations F St F' St' :
  WellFormed F →
  runOnFunction F St = Some (F', St') →
  NumShadowsRemoved St' + numAllocStack F'
  = NumShadowsRemoved St + numAllocStack F.
Proof.
  intros HF Hrun. unfold runOnFunction in Hrun.
  destruct (getBlocks F) as [|EntryBlock Bs]; [done|].
  by eapply runOnFunction_args_numAllocStack.
Qed.

Lemma runOnFunction_removed_allocations_witness :
  NumShadowsRemoved (mkStats 1 0)
  + numAllocStack (promoteShadow 3 0 twoShadowsFunction)
  = NumShadowsRemoved noStatistics + numAllocStack twoShadowsFunction.
Proof.
  apply (runOnFunction_removed_allocations twoShadowsFunction noStatistics
           (promoteShadow 3 0 twoShadowsFunction) (mkStats 1 0)).
  - compute_done.
  - reflexivity.
Defined.

(** A function with no [alloc_stack] instruction is returned as it is, use
    lists included, and none of its parameters counts as removed. *)
Theorem runOnFunction_no_alloc_stack F St F' St' :
  numAllocStack F = 0 →
  runOnFunction F St = Some (F', St') →
  F' = F ∧ NumShadowsRemoved St' = NumShadowsRemoved St.
Proof.
  unfold runOnFunction. intros Hnone.
  destruct (getBlocks F) as [|EntryBlock Bs]; [done|].
  by apply runOnFunction_args_no_alloc_stack.
Qed.

Lemma runOnFunction_no_alloc_stack_witness :
  readOnlyFunction = readOnlyFunction
  ∧ NumShadowsRemoved (mkStats 0 1) = NumShadowsRemoved noStatistics.
Proof.
  apply (runOnFunction_no_alloc_stack readOnlyFunction noStatistics
           readOnlyFunction (mkStats 0 1)); reflexivity.
Defined.

(** [runOnFunction] has a result exactly on a function that has a block and
    whose entry block has an argument at the index of every inout
    parameter; parameters passed in another way need no argument. *)
Theorem runOnFunction_defined_iff F St :
  is_Some (runOnFunction F St)
  ↔ ∃ EntryBlock Bs,
      getBlocks F = EntryBlock :: Bs
      ∧ ∀ j P, getInterfaceParameters F !! j = Some P →
               isIndirectInOut P = true →
               is_Some (getBBArgs EntryBlock !! j).
Proof.
  unfold runOnFunction. split.
  - destruct (getBlocks F) as [|EntryBlock Bs]; [by intros [? ?]|].
    intros [r Hr]. exists EntryBlock, Bs. split; [done|].
    intros j P HP Hio.
    by apply (runOnFunction_args_defined _ _ _ _ _ _ _ _ Hr HP Hio).
  - intros (EntryBlock & Bs & -> & H). by apply runOnFunction_args_total.
Qed.

(** The module driver takes the functions one by one: the module it returns
    has, in the place of a function without a body, that function, and in
    the place of a function with a body, the function [runOnFunction]
    returns for it, whatever the counters are; what the pass does to a
    function does not depend on the other functions of the module. *)
Theorem performInOutDeshadowing_pointwise M S M' S' :
  performInOutDeshadowing M S = Some (M', S') →
  Forall2 (λ Fn Fn',
             if decide (getBlocks Fn = []) then Fn' = Fn
             else ∀ T, ∃ T', runOnFunction Fn T = Some (Fn', T')) M M'.
Proof.
  revert S M' S'. induction M as [|Fn M IH]; intros S M' S'.
  - intros [= <- <-]. constructor.
  - simpl. unfold runOnFunction.
    destruct (getBlocks Fn) as [|EntryBlock Bs] eqn:HB.
    + destruct (performInOutDeshadowing M S) as [[M1 S1]|] eqn:HM; [|done].
      simpl. intros [= <- <-]. constructor; [|by eapply IH].
      by rewrite decide_True.
    + rewrite performInOutDeshadowing_args_runOnFunction_args.
      destruct (runOnFunction_args _ _ _ _ _) as [[Fn1 S1]|] eqn:HFn; [|done].
      simpl.
      destruct (performInOutDeshadowing M S1) as [[M2 S2]|] eqn:HM; [|done].
      simpl. intros [= <- <-]. constructor; [|by eapply IH].
      rewrite decide_False by (by rewrite HB). intros T. rewrite HB.
      by eapply runOnFunction_args_statistics.
Qed.

Lemma performInOutDeshadowing_pointwise_witness :
  Forall2 (λ Fn Fn',
             if decide (getBlocks Fn = []) then Fn' = Fn
             else ∀ T, ∃ T', runOnFunction Fn T = Some (Fn', T'))
    [scenarioA; declaration; scenarioB]
    [promoteShadow 1 0 scenarioA; declaration; scenarioB].
Proof.
  apply (performInOutDeshadowing_pointwise
           [scenarioA; declaration; scenarioB] noStatistics
           [promoteShadow 1 0 scenarioA; declaration; scenarioB]
           (mkStats 1 1)).
  reflexivity.
Defined.

(** Over a module, every inout parameter of every function with a body is
    counted once, as removed or as kept; a function without a body counts
    for nothing. *)
Theorem performInOutDeshadowing_counts_every_parameter M S M' S' :
  performInOutDeshadowing M S = Some (M', S') →
  NumShadowsRemoved S' + NumShadowsKept S'
  = NumShadowsRemoved S + NumShadowsKept S + numInOutParameters M
  ∧ NumShadowsRemoved S ≤ NumShadowsRemoved S'
  ∧ NumShadowsKept S ≤ NumShadowsKept S'.
Proof.
  revert S M' S'. induction M as [|Fn M IH]; intros S M' S'.
  - intros [= <- <-]. simpl. lia.
  - simpl. destruct (getBlocks Fn) as [|EntryBlock Bs] eqn:HB.
    + destruct (performInOutDeshadowing M S) as [[M1 S1]|] eqn:HM; [|done].
      simpl. intros [= <- <-]. by eapply IH.
    + rewrite performInOutDeshadowing_args_runOnFunction_args.
      destruct (runOnFunction_args _ _ _ _ _) as [[Fn1 S1]|] eqn:HFn; [|done].
      simpl.
      destruct (performInOutDeshadowing M S1) as [[M2 S2]|] eqn:HM; [|done].
      simpl. intros [= <- <-].
      apply runOnFunction_args_counters in HFn as (Hlen & Hrem & Hkept).
      apply IH in HM as (Hsum & Hle1 & Hle2).
      pose proof (length_filter_bool
                    (outcomes (getInterfaceParameters Fn) 0
                       (getBBArgs EntryBlock) Fn)).
      lia.
Qed.

Lemma performInOutDeshadowing_counts_every_parameter_witness :
  NumShadowsRemoved (mkStats 1 1) + NumShadowsKept (mkStats 1 1)
  = NumShadowsRemoved noStatistics + NumShadowsKept noStatistics
    + numInOutParameters [scenarioA; declaration; scenarioB]
  ∧ NumShadowsRemoved noStatistics ≤ NumShadowsRemoved (mkStats 1 1)
  ∧ NumShadowsKept noStatistics ≤ NumShadowsKept (mkStats 1 1).
Proof.
  apply (performInOutDeshadowing_counts_every_parameter
           [scenarioA; declaration; scenarioB] noStatistics
           [promoteShadow 1 0 scenarioA; declaration; scenarioB]
           (mkStats 1 1)).
  reflexivity.
Defined.

(** A module in which no function has an inout parameter is returned as it
    is, with the counters as they were; the driver then reads no argument
    of any entry block. *)
Theorem performInOutDeshadowing_no_inout M S :
  Forall (λ Fn, Forall (λ P, isIndirectInOut P = false)
                  (getInterfaceParameters Fn)) M →
  performInOutDeshadowing M S = Some (M, S).
Proof.
  assert (∀ Params arg BBArgs F St,
            Forall (λ P, isIndirectInOut P = false) Params →
            performInOutDeshadowing_args Params arg BBArgs F St
            = Some (F, St)) as Hargs.
  { induction Params as [|P Params IH]; intros arg BBArgs F St HP; [done|].
    inversion HP as [|? ? Hio HPs]; subst. simpl. rewrite Hio. simpl.
    by apply IH. }
  induction 1 as [|Fn M HFn _ IH]; [done|].
  simpl. destruct (getBlocks Fn) as [|EntryBlock Bs].
  - by rewrite IH.
  - rewrite Hargs by done. simpl. by rewrite IH.
Qed.

Lemma performInOutDeshadowing_no_inout_witness :
  performInOutDeshadowing [directFunction] noStatistics
  = Some ([directFunction], noStatistics).
Proof.
  apply (performInOutDeshadowing_no_inout [directFunction] noStatistics).
  repeat constructor.
Defined.

(** The module driver keeps every function well formed and changes no
    signature: the module it returns has as many functions, each with the
    parameters and the block arguments it had. *)
Theorem performInOutDeshadowing_preserves M S M' S' :
  Forall WellFormed M →
  performInOutDeshadowing M S = Some (M', S') →
  Forall WellFormed M' ∧ signature <$> M' = signature <$> M.
Proof.
  intros HM. revert S M' S'.
  induction HM as [|Fn M HFn _ IH]; intros S M' S'.
  - by intros [= <- <-].
  - simpl. destruct (getBlocks Fn) as [|EntryBlock Bs] eqn:HB.
    + destruct (performInOutDeshadowing M S) as [[M1 S1]|] eqn:HM; [|done].
      simpl. intros [= <- <-]. destruct (IH _ _ _ HM) as [HW Hs].
      split; [by constructor|]. csimpl. by rewrite Hs.
    + rewrite performInOutDeshadowing_args_runOnFunction_args.
      destruct (runOnFunction_args _ _ _ _ _) as [[Fn1 S1]|] eqn:Hrun;
        [|done].
      simpl.
      destruct (performInOutDeshadowing M S1) as [[M2 S2]|] eqn:HM; [|done].
      simpl. intros [= <- <-]. destruct (IH _ _ _ HM) as [HW Hs].
      split.
      * constructor; [|done].
        by eapply WellFormed_runOnFunction_args.
      * csimpl. rewrite Hs. f_equal.
        by eapply signature_runOnFunction_args.
Qed.

Lemma performInOutDeshadowing_preserves_witness :
  Forall WellFormed [promoteShadow 1 0 scenarioA; declaration; scenarioB]
  ∧ signature <$> [promoteShadow 1 0 scenarioA; declaration; scenarioB]
    = signature <$> [scenarioA; declaration; scenarioB].
Proof.
  apply (performInOutDeshadowing_preserves
           [scenarioA; declaration; scenarioB] noStatistics
           [promoteShadow 1 0 scenarioA; declaration; scenarioB]
           (mkStats 1 1)).
  - compute_done.
  - reflexivity.
Defined.
